(** * Market-neutral pairs-trading backtest: a shallow embedding of [app.py]

    The development embeds the quantitative core of the program
    ([calculate_zscore_safe], [generate_signals_safe], the position frame built
    in [main], and [run_backtest_safe]) and states the properties of the
    specification over it.

    Numbers.  A pandas cell is a [float]: either a number or the missing value
    (NaN).  Numbers are exact rationals ([Q]); rounding error, overflow and the
    IEEE infinities are outside the model.  A division whose divisor is zero
    gives the missing value here (IEEE gives an infinity or NaN), so every
    statement that looks through a quotient of prices assumes the previous
    price non-zero, as the data model of the panel (positive prices) grants.

    Index.  A series is a list; the row at list position [i] carries the
    timestamp [i].  Binary operations of two series align on the index: where
    one operand has no row the result is missing. *)

From Stdlib Require Import String List ZArith QArith Qabs Qminmax Qround.
From Stdlib Require Import Lia Lqa Bool Arith PeanoNat.
From Stdlib Require Import DecimalString Sorted.
Import ListNotations.
Open Scope Q_scope.

(** ** Cells, comparisons and arithmetic with the missing value *)

Definition float := option Q.
Definition Series := list float.

(** The [(value, error)] pair every [*_safe] function returns. *)
Inductive outcome (A : Type) : Type :=
| Ok (value : A)
| Fail (error : string).
Arguments Ok {A} value.
Arguments Fail {A} error.

Definition Qltb (x y : Q) : bool := negb (Qle_bool y x).
Definition Qgtb (x y : Q) : bool := Qltb y x.
Definition Qeqb (x y : Q) : bool := Qeq_bool x y.

Definition flift2 (f : Q -> Q -> Q) (a b : float) : float :=
  match a, b with
  | Some x, Some y => Some (f x y)
  | _, _ => None
  end.

Definition fadd : float -> float -> float := flift2 Qplus.
Definition fsub : float -> float -> float := flift2 Qminus.
Definition fmul : float -> float -> float := flift2 Qmult.

Definition fdiv (a b : float) : float :=
  match a, b with
  | Some x, Some y => if Qeqb y 0 then None else Some (x / y)
  | _, _ => None
  end.

Definition fabs (a : float) : float := option_map Qabs a.

(** [x > 0] on a cell: a comparison with NaN is false. *)
Definition fpos (a : float) : bool :=
  match a with
  | Some x => Qgtb x 0
  | None => false
  end.

(** Equality of cells up to the equality of rationals. *)
Definition feq (a b : float) : Prop :=
  match a, b with
  | Some x, Some y => x == y
  | None, None => True
  | _, _ => False
  end.

(** The numeric library the program calls and the model does not compute:
    [np.sqrt] and the float power [**]. *)
Class FloatLib : Type := {
  fsqrt : Q -> float;
  fpow : Q -> Q -> float
}.

(** ** Sums and means that skip missing cells *)

Fixpoint Qsum (l : list Q) : Q :=
  match l with
  | [] => 0
  | x :: r => x + Qsum r
  end.

Fixpoint present (s : Series) : list Q :=
  match s with
  | [] => []
  | Some x :: r => x :: present r
  | None :: r => present r
  end.

(** [DataFrame.sum(axis=1)] on one row: missing cells are skipped and the sum
    of no cell is 0. *)
Definition sum_skipna (row : list float) : Q := Qsum (present row).

Definition Qlen (l : list Q) : Q := inject_Z (Z.of_nat (length l)).

(** [Series.mean()] on present values: NaN for the empty series. *)
Definition mean (l : list Q) : float :=
  match l with
  | [] => None
  | _ => Some (Qsum l / Qlen l)
  end.

(** Sum of products of deviations from the means. *)
Definition sum_dev (xs ys : list Q) : float :=
  match mean xs, mean ys with
  | Some mx, Some my =>
      Some (Qsum (map (fun p => (fst p - mx) * (snd p - my)) (combine xs ys)))
  | _, _ => None
  end.

(** [Series.cov] with the default [ddof=1]: NaN with fewer than two
    observations. *)
Definition cov (xs ys : list Q) : float :=
  if (length xs <? 2)%nat then None
  else fdiv (sum_dev xs ys) (Some (Qlen xs - 1)).

(** [Series.var()] (sample variance, [ddof=1]). *)
Definition var (xs : list Q) : float := cov xs xs.

(** [Series.std()]. *)
Definition std `{FloatLib} (xs : list Q) : float :=
  match var xs with
  | Some v => fsqrt v
  | None => None
  end.

(** [Series.corr] (Pearson): the sum of cross deviations over the root of the
    product of the two sums of squared deviations, NaN when that root is 0. *)
Definition corr `{FloatLib} (xs ys : list Q) : float :=
  if (length xs <? 2)%nat then None
  else
    match sum_dev xs ys, sum_dev xs xs, sum_dev ys ys with
    | Some sxy, Some sxx, Some syy => fdiv (Some sxy) (fsqrt (sxx * syy))
    | _, _, _ => None
    end.

(** ** [calculate_zscore_safe] *)

Record PriceRow : Type := mkRow { price1 : Q; price2 : Q }.

(** [prices[ticker1] / prices[ticker2]]. *)
Definition price_ratio (prices : list PriceRow) : Series :=
  map (fun r => fdiv (Some (price1 r)) (Some (price2 r))) prices.

Definition is_zero (a : float) : bool :=
  match a with
  | Some x => Qeqb x 0
  | None => false
  end.

Definition isnull (a : float) : bool :=
  match a with
  | Some _ => false
  | None => true
  end.

(** The trailing window of [w] rows that ends at row [i], when row [i] has
    that many rows up to it. *)
Definition window_at (s : Series) (w i : nat) : option (list float) :=
  if (w <=? S i)%nat then Some (firstn w (skipn (S i - w) s)) else None.

(** [all_present l] is the list of values when no cell of [l] is missing. *)
Fixpoint all_present (l : list float) : option (list Q) :=
  match l with
  | [] => Some []
  | Some x :: r =>
      match all_present r with
      | Some xs => Some (x :: xs)
      | None => None
      end
  | None :: r => None
  end.

(** [Series.rolling(window=w, min_periods=w).agg()]: the aggregate of the
    window when it holds [w] present observations, missing otherwise. *)
Definition rolling (agg : list Q -> float) (w : nat) (s : Series) : Series :=
  map (fun i =>
         match window_at s w i with
         | Some cells =>
             match all_present cells with
             | Some xs => agg xs
             | None => None
             end
         | None => None
         end)
      (seq 0 (length s)).

(** [rolling_std.replace(0, np.nan)]. *)
Definition replace_zero (a : float) : float :=
  if is_zero a then None else a.

Fixpoint zip3 (f : float -> float -> float -> float) (a b c : Series) : Series :=
  match a, b, c with
  | x :: a', y :: b', z :: c' => f x y z :: zip3 f a' b' c'
  | _, _, _ => []
  end.

Definition InvalidPriceRatio : string := "Invalid price ratio detected".

Definition calculate_zscore_safe `{FloatLib} (prices : list PriceRow) (window : nat)
  : outcome Series :=
  let ratio := price_ratio prices in
  if existsb is_zero ratio || forallb isnull ratio then Fail InvalidPriceRatio
  else
    let rolling_mean := rolling mean window ratio in
    let rolling_std := map replace_zero (rolling std window ratio) in
    Ok (zip3 (fun r m s => fdiv (fsub r m) s) ratio rolling_mean rolling_std).

(** ** [generate_signals_safe] *)

(** One pass of the loop body on a present z-score: the new value of the
    variable [position]. *)
Definition step_position (entry_threshold exit_threshold : Q) (position : Z) (z : Q) : Z :=
  if (position =? 0)%Z then
    if Qgtb z entry_threshold then (-1)%Z
    else if Qltb z (- entry_threshold) then 1%Z
    else position
  else
    if Qltb (Qabs z) exit_threshold then 0%Z
    else position.

(** The loop over [enumerate(zscore)], carrying [position] and producing
    [signals] in index order. *)
Fixpoint signals_loop (entry_threshold exit_threshold : Q) (position : Z) (zscore : Series)
  : list Q :=
  match zscore with
  | [] => []
  | None :: rest => 0 :: signals_loop entry_threshold exit_threshold position rest
  | Some z :: rest =>
      let position' := step_position entry_threshold exit_threshold position z in
      inject_Z position' :: signals_loop entry_threshold exit_threshold position' rest
  end.

Definition generate_signals_safe (zscore : Series) (entry_threshold exit_threshold : Q)
  : outcome (list Q) :=
  Ok (signals_loop entry_threshold exit_threshold 0%Z zscore).

(** ** The position state machine as the specification words it *)

Inductive PositionState : Type := Flat | LongSpread | ShortSpread.

Definition signal_value (s : PositionState) : Q :=
  match s with
  | Flat => inject_Z 0
  | LongSpread => inject_Z 1
  | ShortSpread => inject_Z (-1)
  end.

Definition spec_transition (entry_threshold exit_threshold : Q) (s : PositionState) (z : Q)
  : PositionState :=
  match s with
  | Flat =>
      if Qlt_le_dec entry_threshold z then ShortSpread
      else if Qlt_le_dec z (- entry_threshold) then LongSpread
      else Flat
  | LongSpread | ShortSpread =>
      if Qlt_le_dec (Qabs z) exit_threshold then Flat else s
  end.

(** The left-to-right scan: the output at each timestamp, the carried state
    threaded to the next one. *)
Fixpoint spec_scan (entry_threshold exit_threshold : Q) (s : PositionState) (zscore : Series)
  : list PositionState :=
  match zscore with
  | [] => []
  | None :: rest => Flat :: spec_scan entry_threshold exit_threshold s rest
  | Some z :: rest =>
      let s' := spec_transition entry_threshold exit_threshold s z in
      s' :: spec_scan entry_threshold exit_threshold s' rest
  end.

(** No two consecutive outputs are opposite open positions. *)
Fixpoint no_direct_flip (l : list PositionState) : Prop :=
  match l with
  | a :: ((b :: _) as r) =>
      ~ (a = LongSpread /\ b = ShortSpread) /\
      ~ (a = ShortSpread /\ b = LongSpread) /\
      no_direct_flip r
  | _ => True
  end.

(** ** The position frame built in [main] *)

Record Weights : Type := mkWeights { weight1 : Q; weight2 : Q }.

(** [pd.DataFrame({ticker1: signals * 0.5, ticker2: -signals * 0.5})]. *)
Definition make_positions (signals : list Q) : list Weights :=
  map (fun s => mkWeights (s * (1 # 2)) (- s * (1 # 2))) signals.

(** ** Series operations of [run_backtest_safe] *)

(** The cell of row [i]; missing when the series has no such row. *)
Definition cell (s : Series) (i : nat) : float :=
  match nth_error s i with
  | Some c => c
  | None => None
  end.

(** A binary operation of two series, aligned on the union of the indexes. *)
Definition align (f : float -> float -> float) (a b : Series) : Series :=
  map (fun i => f (cell a i) (cell b i)) (seq 0 (Nat.max (length a) (length b))).

(** [.sum(axis=1)] of a two-column frame. *)
Definition row_sum (c1 c2 : Series) : Series :=
  map (fun i => Some (sum_skipna [cell c1 i; cell c2 i]))
      (seq 0 (Nat.max (length c1) (length c2))).

Fixpoint shift_from (prev : float) (col : list Q) : Series :=
  match col with
  | [] => []
  | x :: rest => prev :: shift_from (Some x) rest
  end.

(** [.shift(1)]: every value moves one row down, the first row is missing. *)
Definition shift1 (col : list Q) : Series := shift_from None col.

(** [.pct_change()]: [col / col.shift(1) - 1]. *)
Definition pct_change (col : list Q) : Series :=
  align (fun x prev => fsub (fdiv x prev) (Some 1)) (map Some col) (shift1 col).

(** [.diff()]: [col - col.shift(1)]. *)
Definition diff (col : list Q) : Series :=
  align fsub (map Some col) (shift1 col).

Fixpoint cumprod_from (acc : Q) (s : Series) : Series :=
  match s with
  | [] => []
  | None :: rest => None :: cumprod_from acc rest
  | Some x :: rest => Some (acc * x) :: cumprod_from (acc * x) rest
  end.

(** [.cumprod()]: a missing cell stays missing and does not enter the
    running product. *)
Definition cumprod (s : Series) : Series := cumprod_from 1 s.

Fixpoint expanding_max_from (cur : float) (s : Series) : Series :=
  match s with
  | [] => []
  | c :: rest =>
      let cur' :=
        match c, cur with
        | Some x, Some m => Some (Qmax m x)
        | Some x, None => Some x
        | None, _ => cur
        end in
      cur' :: expanding_max_from cur' rest
  end.

(** [.expanding().max()]: the maximum of the present cells so far. *)
Definition expanding_max (s : Series) : Series := expanding_max_from None s.

Fixpoint dropna_from (i : nat) (s : Series) : list (nat * Q) :=
  match s with
  | [] => []
  | None :: rest => dropna_from (S i) rest
  | Some x :: rest => (i, x) :: dropna_from (S i) rest
  end.

(** [.dropna()]: the present cells, each with its index label. *)
Definition dropna (s : Series) : list (nat * Q) := dropna_from 0 s.

Definition labels (s : list (nat * Q)) : list nat := map fst s.
Definition values (s : list (nat * Q)) : list Q := map snd s.

(** [a.index.intersection(b.index)]. *)
Definition index_intersection (a b : list (nat * Q)) : list nat :=
  filter (fun d => existsb (Nat.eqb d) (labels b)) (labels a).

Fixpoint lookup (d : nat) (s : list (nat * Q)) : option Q :=
  match s with
  | [] => None
  | (d', x) :: rest => if (d =? d')%nat then Some x else lookup d rest
  end.

(** [s.loc[dates]]: the values at the labels, [None] for a [KeyError]. *)
Fixpoint loc (s : list (nat * Q)) (dates : list nat) : option (list Q) :=
  match dates with
  | [] => Some []
  | d :: rest =>
      match lookup d s, loc s rest with
      | Some x, Some xs => Some (x :: xs)
      | _, _ => None
      end
  end.

(** [.min()] of a series, missing cells skipped. *)
Definition series_min (s : Series) : float :=
  match present s with
  | [] => None
  | x :: rest => Some (fold_left Qmin rest x)
  end.

(** [s.iloc[-1]]. *)
Definition last_cell (s : Series) : float := last s None.

(** [round(x, ndigits)]: to the nearest multiple of [10^-ndigits], ties to
    the even one. *)
Definition round_half_even (q : Q) : Z :=
  let f := Qfloor q in
  let d := q - inject_Z f in
  if Qltb d (1 # 2) then f
  else if Qltb (1 # 2) d then (f + 1)%Z
  else if Z.even f then f else (f + 1)%Z.

Definition round_nd (x : float) (ndigits : nat) : float :=
  option_map
    (fun q =>
       let scale := inject_Z (10 ^ Z.of_nat ndigits) in
       inject_Z (round_half_even (q * scale)) / scale)
    x.

(** ** [run_backtest_safe] *)

(** Where the benchmark returns come from: the column [prices[benchmark]]
    when the panel has it, otherwise what the download branch produced
    ([None] when the download came back empty or raised). *)
Inductive Benchmark : Type :=
| InPanel (column : list Q)
| Fetched (benchmark_returns : option (list (nat * Q))).

Definition EmptyReturnSeries : string := "No valid returns generated".
Definition ZeroHorizon : string := "Insufficient data for annualization".

Record BacktestResult : Type := mkResult {
  res_returns : Series;
  res_equity_curve : Series;
  res_drawdown : Series;
  res_gross_exposure : Series;
  res_net_exposure : Series;
  res_turnover : Series;
  res_metrics : list (string * float)
}.

Section Backtest.
Context `{FloatLib}.
Variable prices : list PriceRow.
Variable positions : list Weights.
Variable tc_bps : Q.
Variable benchmark : Benchmark.

(** [prices[[ticker1, ticker2]].pct_change()], column by column. *)
Definition price_returns1 : Series := pct_change (map price1 prices).
Definition price_returns2 : Series := pct_change (map price2 prices).

(** [(positions.shift(1) * price_returns).sum(axis=1)]. *)
Definition strategy_returns : Series :=
  row_sum (align fmul (shift1 (map weight1 positions)) price_returns1)
          (align fmul (shift1 (map weight2 positions)) price_returns2).

(** [positions.diff().abs().sum(axis=1)]. *)
Definition turnover : Series :=
  row_sum (map fabs (diff (map weight1 positions)))
          (map fabs (diff (map weight2 positions))).

Definition tc_cost : Q := tc_bps / 10000.

Definition transaction_costs : Series :=
  map (fun t => fmul t (Some tc_cost)) turnover.

Definition net_returns : Series := align fsub strategy_returns transaction_costs.

Definition equity_curve : Series := cumprod (map (fadd (Some 1)) net_returns).

(** [positions.abs().sum(axis=1)] and [positions.sum(axis=1)]. *)
Definition gross_exposure : Series :=
  row_sum (map (fun w => Some (Qabs (weight1 w))) positions)
          (map (fun w => Some (Qabs (weight2 w))) positions).

Definition net_exposure : Series :=
  row_sum (map (fun w => Some (weight1 w)) positions)
          (map (fun w => Some (weight2 w)) positions).

Definition returns_clean : list (nat * Q) := dropna net_returns.

Definition running_max : Series := expanding_max equity_curve.

Definition drawdown : Series :=
  map (fun d => fmul d (Some 100))
      (align fdiv (align fsub equity_curve running_max) running_max).

(** The benchmark block: the values of [beta] and [correlation] when the
    [try] is left.  Both keep their initial 0 unless more than 20 dates are
    common to the two return series. *)
Definition benchmark_returns : option (list (nat * Q)) :=
  match benchmark with
  | InPanel column => Some (dropna (pct_change column))
  | Fetched r => r
  end.

Definition common_dates (bench : list (nat * Q)) : list nat :=
  index_intersection returns_clean bench.

Definition market_beta : float * float :=
  match benchmark_returns with
  | None => (Some 0, Some 0)
  | Some bench =>
      let common := common_dates bench in
      if (20 <? length common)%nat then
        match loc returns_clean common, loc bench common with
        | Some returns_aligned, Some benchmark_aligned =>
            let correlation := corr returns_aligned benchmark_aligned in
            let covariance := cov returns_aligned benchmark_aligned in
            let market_variance := var benchmark_aligned in
            (if fpos market_variance then fdiv covariance market_variance else Some 0,
             correlation)
        | _, _ => (Some 0, Some 0)
        end
      else (Some 0, Some 0)
  end.

Definition run_backtest_safe : outcome BacktestResult :=
  if (length returns_clean =? 0)%nat then Fail EmptyReturnSeries
  else
    let trading_days := length returns_clean in
    let years := inject_Z (Z.of_nat trading_days) / 252 in
    if Qeqb years 0 then Fail ZeroHorizon
    else
      let rets := values returns_clean in
      let last_equity := last_cell equity_curve in
      let total_return := fmul (fsub last_equity (Some 1)) (Some 100) in
      let cagr :=
        fmul (fsub (match last_equity with
                    | Some e => fpow e (1 / years)
                    | None => None
                    end) (Some 1)) (Some 100) in
      let volatility := fmul (fmul (std rets) (fsqrt 252)) (Some 100) in
      let sharpe := if fpos volatility then fdiv cagr volatility else Some 0 in
      let max_drawdown := series_min drawdown in
      let wins := filter (fun r => Qgtb r 0) rets in
      let losses := filter (fun r => Qltb r 0) rets in
      let winning := length wins in
      let losing := length losses in
      let total_trades := (winning + losing)%nat in
      let hit_rate :=
        if (0 <? total_trades)%nat
        then Some (inject_Z (Z.of_nat winning) / inject_Z (Z.of_nat total_trades) * 100)
        else Some 0 in
      let avg_win :=
        if (0 <? length wins)%nat then fmul (mean wins) (Some 100) else Some 0 in
      let avg_loss :=
        if (0 <? length losses)%nat then fmul (mean losses) (Some 100) else Some 0 in
      let '(beta, correlation) := market_beta in
      Ok {| res_returns := net_returns;
            res_equity_curve := equity_curve;
            res_drawdown := drawdown;
            res_gross_exposure := gross_exposure;
            res_net_exposure := net_exposure;
            res_turnover := turnover;
            res_metrics :=
              [ ("Total Return (%)"%string, round_nd total_return 2);
                ("CAGR (%)"%string, round_nd cagr 2);
                ("Annualized Volatility (%)"%string, round_nd volatility 2);
                ("Sharpe Ratio"%string, round_nd sharpe 2);
                ("Max Drawdown (%)"%string, round_nd max_drawdown 2);
                ("Hit Rate (%)"%string, round_nd hit_rate 2);
                ("Avg Win (%)"%string, round_nd avg_win 3);
                ("Avg Loss (%)"%string, round_nd avg_loss 3);
                ("Beta vs Market"%string, round_nd beta 3);
                ("Correlation vs Market"%string, round_nd correlation 3);
                ("Trading Days"%string, Some (inject_Z (Z.of_nat trading_days)));
                ("Avg Gross Exposure"%string, round_nd (mean (present gross_exposure)) 2);
                ("Avg Net Exposure"%string, round_nd (mean (present net_exposure)) 3);
                ("Avg Daily Turnover"%string, round_nd (mean (present turnover)) 4) ] |}.

End Backtest.

(** The value a metrics dictionary holds under a key. *)
Fixpoint metric (key : string) (m : list (string * float)) : float :=
  match m with
  | [] => None
  | (k, v) :: rest => if String.eqb key k then v else metric key rest
  end.

(** ** The pipeline of [main]: z-score, signals, positions, backtest *)

Definition pipeline `{FloatLib} (prices : list PriceRow) (benchmark : Benchmark)
    (zscore_window : nat) (entry_threshold exit_threshold transaction_cost : Q)
  : outcome BacktestResult :=
  match calculate_zscore_safe prices zscore_window with
  | Fail e => Fail e
  | Ok zscore =>
      match generate_signals_safe zscore entry_threshold exit_threshold with
      | Fail e => Fail e
      | Ok signals =>
          run_backtest_safe prices (make_positions signals) transaction_cost benchmark
      end
  end.

(** A concrete numeric library for running the model: the square root is
    taken to six decimals and powers are left missing. *)
Definition approx_sqrt (q : Q) : float :=
  if Qltb q 0 then None
  else Some (inject_Z (Z.sqrt (Qfloor (q * 1000000000000))) / 1000000).

Definition approx_lib : FloatLib :=
  {| fsqrt := approx_sqrt; fpow := fun _ _ => None |}.

(** * Notions and sample inputs used in the statements *)

(** The value of the variable [position] that stands for a state. *)
Definition position_of (s : PositionState) : Z :=
  match s with
  | Flat => 0%Z
  | LongSpread => 1%Z
  | ShortSpread => (-1)%Z
  end.

(** The panel of the data model: every close price is positive. *)
Definition positive_panel (prices : list PriceRow) : Prop :=
  Forall (fun r => 0 < price1 r /\ 0 < price2 r) prices.

(** A cell that is missing or holds a number equal to 0. *)
Definition zero_cell (c : float) : Prop :=
  match c with
  | Some x => x == 0
  | None => True
  end.

(** A position frame whose weights are all 0. *)
Definition flat_frame (positions : list Weights) : Prop :=
  Forall (fun w => weight1 w == 0 /\ weight2 w == 0) positions.

(** [equity_curve.iloc[-1]], the terminal value of the equity curve. *)
Definition terminal_equity (prices : list PriceRow) (positions : list Weights) (tc_bps : Q)
  : float :=
  last_cell (equity_curve prices positions tc_bps).

(** The turnover and the transaction cost summed over all rows. *)
Definition total_turnover (positions : list Weights) : Q :=
  Qsum (present (turnover positions)).

Definition cumulative_cost (positions : list Weights) (tc_bps : Q) : Q :=
  Qsum (present (transaction_costs positions tc_bps)).

(** The turnover and the strategy return of row [i], as [row_sum] forms
    them. *)
Definition turnover_at (positions : list Weights) (i : nat) : Q :=
  sum_skipna [cell (map fabs (diff (map weight1 positions))) i;
              cell (map fabs (diff (map weight2 positions))) i].

Definition strategy_at (prices : list PriceRow) (positions : list Weights) (i : nat) : Q :=
  sum_skipna
    [cell (align fmul (shift1 (map weight1 positions)) (price_returns1 prices)) i;
     cell (align fmul (shift1 (map weight2 positions)) (price_returns2 prices)) i].

(** A net return paired with the net return of the same row under a cost
    that is not lower: the second is not above the first and keeps its
    growth factor positive. *)
Definition dominated (c c' : float) : Prop :=
  exists a b, c = Some a /\ c' = Some b /\ 0 < 1 + b /\ b <= a.

(** Two present cells that hold the same number. *)
Definition same_value (c c' : float) : Prop :=
  exists a b, c = Some a /\ c' = Some b /\ b == a.

(** A six-row panel and a position path over it: flat, long the spread for
    two rows, flat for two rows, short the spread. *)
Definition sample_panel : list PriceRow :=
  [mkRow 10 10; mkRow 12 10; mkRow 9 10; mkRow 15 10; mkRow 10 10; mkRow 11 10].

Definition sample_positions : list Weights :=
  [mkWeights 0 0; mkWeights (1 # 2) (- (1 # 2)); mkWeights (1 # 2) (- (1 # 2));
   mkWeights 0 0; mkWeights 0 0; mkWeights (- (1 # 2)) (1 # 2)].

Definition sample_benchmark : Benchmark := InPanel [100; 101; 99; 102; 103; 101].

(** A panel whose second ticker quadruples on the last row, held short on
    that ticker from the second row on. *)
Definition shock_panel : list PriceRow := [mkRow 1 1; mkRow 1 1; mkRow 1 4].

Definition shock_positions : list Weights :=
  [mkWeights 0 0; mkWeights (1 # 2) (- (1 # 2)); mkWeights (1 # 2) (- (1 # 2))].

(** A benchmark column of 21 rows that swings 1, 2, 1, ..., 1; a panel whose
    first ticker follows it and whose second ticker stays at 1; a position
    held on every row. *)
Fixpoint alternating (n : nat) : list Q :=
  match n with
  | O => []
  | S k => (if Nat.even k then 1 else 2) :: alternating k
  end.

Definition see_saw_column : list Q := alternating 21.

Definition see_saw_panel : list PriceRow := map (fun p => mkRow p 1) see_saw_column.

Definition held_positions : list Weights :=
  repeat (mkWeights (1 # 2) (- (1 # 2))) 21.

(** * Further notions *)

(** The series with every present z-score negated. *)
Definition negate_series (zscore : Series) : Series :=
  map (option_map Qopp) zscore.

(** A numeric library whose square root of zero is zero (or missing). *)
Definition sqrt_of_zero `{FloatLib} : Prop :=
  forall v : Q, v == 0 -> zero_cell (fsqrt v).

(** The panel with every price of the first ticker multiplied by [c1] and
    every price of the second by [c2] (another unit or currency). *)
Definition scale_panel (c1 c2 : Q) (prices : list PriceRow) : list PriceRow :=
  map (fun r => mkRow (c1 * price1 r) (c2 * price2 r)) prices.

(** The position frame with every weight negated (the other side of each
    trade). *)
Definition mirror (positions : list Weights) : list Weights :=
  map (fun w => mkWeights (- weight1 w) (- weight2 w)) positions.

Definition fopp (a : float) : float := option_map Qopp a.

(** The exposure check of [main]: [abs(net_exp) < 0.1]. *)
Definition exposure_check (net_exp : float) : bool :=
  match net_exp with
  | Some x => Qltb (Qabs x) (1 # 10)
  | None => false
  end.

(** The hit rate [run_backtest_safe] computes from the cleaned returns,
    before rounding. *)
Definition hit_rate (rets : list Q) : float :=
  let winning := length (filter (fun r => Qgtb r 0) rets) in
  let losing := length (filter (fun r => Qltb r 0) rets) in
  let total_trades := (winning + losing)%nat in
  if (0 <? total_trades)%nat
  then Some (inject_Z (Z.of_nat winning) / inject_Z (Z.of_nat total_trades) * 100)
  else Some 0.

(** * [fetch_data_safe] and the frame it returns

    The retrieval itself ([yf.Ticker(t).history(...)]) is the input: each
    requested ticker comes with the [Close] column of its history, a dated
    series in which a close can be missing.  The provider returns the dates
    of a history in ascending order without repetition; the statements about
    the index assume it (pandas raises on a repeated date when it builds the
    frame, and that exception path is not modelled). *)

Definition History := list (nat * float).

(** The frame [fetch_data_safe] returns: the column names and, for every
    date of the index, one close per column. *)
Record PriceFrame : Type := mkFrame {
  frame_columns : list string;
  frame_rows : list (nat * list Q)
}.

(** An assignment [d[k] = v] of a dict: an existing key keeps its place and
    takes the new value, a new key goes last. *)
Fixpoint dict_set (k : string) (v : History) (d : list (string * History))
  : list (string * History) :=
  match d with
  | [] => [(k, v)]
  | (k', v') :: rest =>
      if String.eqb k k' then (k, v) :: rest else (k', v') :: dict_set k v rest
  end.

(** [{tickers[i]: histories[i]['Close'] for i in range(len(tickers))}]. *)
Definition close_columns (histories : list (string * History))
  : list (string * History) :=
  fold_left (fun d kv => dict_set (fst kv) (snd kv) d) histories [].

Fixpoint insert_date (d : nat) (index : list nat) : list nat :=
  match index with
  | [] => [d]
  | x :: rest =>
      if (d <? x)%nat then d :: index
      else if (d =? x)%nat then index
      else x :: insert_date d rest
  end.

(** The index of the frame built from the columns: the union of their
    dates, ascending. *)
Definition union_index (columns : list (string * History)) : list nat :=
  fold_left
    (fun index column =>
       fold_left (fun i row => insert_date (fst row) i) (snd column) index)
    columns [].

(** The close of a history at a date; missing when the history has no row
    for the date. *)
Fixpoint lookup_close (d : nat) (h : History) : float :=
  match h with
  | [] => None
  | (d', c) :: rest => if (d =? d')%nat then c else lookup_close d rest
  end.

(** [pd.DataFrame(columns)]: every column reindexed to the union index. *)
Definition build_frame (columns : list (string * History)) : list (nat * list float) :=
  map (fun d => (d, map (fun column => lookup_close d (snd column)) columns))
      (union_index columns).

(** [DataFrame.dropna()]: the rows without a missing cell. *)
Fixpoint dropna_rows (rows : list (nat * list float)) : list (nat * list Q) :=
  match rows with
  | [] => []
  | (d, cells) :: rest =>
      match all_present cells with
      | Some closes => (d, closes) :: dropna_rows rest
      | None => dropna_rows rest
      end
  end.

Definition string_of_nat (n : nat) : string :=
  NilZero.string_of_uint (Nat.to_uint n).

Definition DataUnavailable : string :=
  "No data returned. Please check tickers and date range.".

Definition InsufficientHistory (days : nat) : string :=
  ("Insufficient data: only " ++ string_of_nat days ++ " days. Need at least 100.")%string.

Definition fetch_data_safe (histories : list (string * History)) : outcome PriceFrame :=
  if negb (forallb (fun h => (0 <? length (snd h))%nat) histories)
  then Fail DataUnavailable
  else
    let columns := close_columns histories in
    let prices := dropna_rows (build_frame columns) in
    if (length prices <? 100)%nat then Fail (InsufficientHistory (length prices))
    else Ok {| frame_columns := map fst columns; frame_rows := prices |}.

(** The place of a column name among the columns. *)
Fixpoint column_position (name : string) (columns : list string) : option nat :=
  match columns with
  | [] => None
  | c :: rest =>
      if String.eqb name c then Some 0%nat
      else option_map S (column_position name rest)
  end.

(** [prices[name]] when [name in prices.columns]. *)
Definition frame_column (prices : PriceFrame) (name : string) : option (list Q) :=
  match column_position name (frame_columns prices) with
  | Some j => Some (map (fun row => nth j (snd row) 0) (frame_rows prices))
  | None => None
  end.

Definition TickersNotFound : string := "Tickers not found in data".

(** [calculate_zscore_safe] on a frame: the column check first, then the
    computation on the two columns. *)
Definition calculate_zscore_safe_on_frame `{FloatLib} (prices : PriceFrame)
    (ticker1 ticker2 : string) (window : nat) : outcome Series :=
  match frame_column prices ticker1, frame_column prices ticker2 with
  | Some column1, Some column2 =>
      calculate_zscore_safe (map (fun p => mkRow (fst p) (snd p)) (combine column1 column2))
        window
  | _, _ => Fail TickersNotFound
  end.

(** Dates in strictly ascending order. *)
Definition ascending (dates : list nat) : Prop := StronglySorted Nat.lt dates.

(** Histories as the provider returns them: no ticker requested twice, the
    dates of each history ascending. *)
Definition well_formed (histories : list (string * History)) : Prop :=
  NoDup (map fst histories) /\
  Forall (fun h => ascending (map fst (snd h))) histories.

(** A history with one close per day over [days] consecutive days. *)
Definition daily_history (first days : nat) (close : nat -> Q) : History :=
  map (fun d => (d, Some (close d))) (seq first days).

(** Three histories that overlap on the 105 days 10..114. *)
Definition sample_histories : list (string * History) :=
  [("AAA"%string, daily_history 0 120 (fun d => inject_Z (Z.of_nat (100 + d))));
   ("BBB"%string, daily_history 10 120 (fun d => inject_Z (Z.of_nat (200 + 3 * d))));
   ("SPY"%string, daily_history 5 110 (fun d => inject_Z (Z.of_nat (400 + 2 * d))))].


(** The two-ticker panel made of two columns of a frame. *)
Definition pair_panel (column1 column2 : list Q) : list PriceRow :=
  map (fun p => mkRow (fst p) (snd p)) (combine column1 column2).

(** * Properties *)

(** ** Comparisons *)

Lemma Qltb_lt (x y : Q) : Qltb x y = true <-> x < y.
Proof.
  unfold Qltb. rewrite negb_true_iff, <- not_true_iff_false, Qle_bool_iff.
  split; [apply Qnot_le_lt | apply Qlt_not_le].
Qed.

Lemma Qltb_ge (x y : Q) : Qltb x y = false <-> y <= x.
Proof.
  unfold Qltb. rewrite negb_false_iff. apply Qle_bool_iff.
Qed.

Lemma Qeqb_eq (x y : Q) : Qeqb x y = true <-> x == y.
Proof. apply Qeq_bool_iff. Qed.

Lemma Qeqb_neq (x y : Q) : Qeqb x y = false <-> ~ x == y.
Proof.
  rewrite <- not_true_iff_false, Qeqb_eq. tauto.
Qed.

(** ** The state machine *)

Lemma signal_value_position (s : PositionState) :
  inject_Z (position_of s) = signal_value s.
Proof. destruct s; reflexivity. Qed.

Lemma step_position_transition (entry exit : Q) (s : PositionState) (z : Q) :
  step_position entry exit (position_of s) z =
  position_of (spec_transition entry exit s z).
Proof.
  unfold step_position, spec_transition, Qgtb.
  destruct s; simpl.
  - destruct (Qlt_le_dec entry z) as [Hgt | Hle].
    + apply Qltb_lt in Hgt. rewrite Hgt. reflexivity.
    + apply Qltb_ge in Hle. rewrite Hle.
      destruct (Qlt_le_dec z (- entry)) as [Hlt | Hge].
      * apply Qltb_lt in Hlt. rewrite Hlt. reflexivity.
      * apply Qltb_ge in Hge. rewrite Hge. reflexivity.
  - destruct (Qlt_le_dec (Qabs z) exit) as [Hlt | Hge].
    + apply Qltb_lt in Hlt. rewrite Hlt. reflexivity.
    + apply Qltb_ge in Hge. rewrite Hge. reflexivity.
  - destruct (Qlt_le_dec (Qabs z) exit) as [Hlt | Hge].
    + apply Qltb_lt in Hlt. rewrite Hlt. reflexivity.
    + apply Qltb_ge in Hge. rewrite Hge. reflexivity.
Qed.

Lemma signals_loop_scan (entry exit : Q) (zscore : Series) :
  forall s : PositionState,
    signals_loop entry exit (position_of s) zscore =
    map signal_value (spec_scan entry exit s zscore).
Proof.
  induction zscore as [| [z |] rest IH]; intros s; simpl.
  - reflexivity.
  - rewrite step_position_transition, IH, signal_value_position. reflexivity.
  - rewrite IH. reflexivity.
Qed.

Lemma transition_keeps_side (entry exit : Q) (s : PositionState) (z : Q) :
  ~ (s = LongSpread /\ spec_transition entry exit s z = ShortSpread) /\
  ~ (s = ShortSpread /\ spec_transition entry exit s z = LongSpread).
Proof.
  destruct s; simpl; split; intros [Hs Ht]; try discriminate;
    destruct (Qlt_le_dec (Qabs z) exit); discriminate.
Qed.

Lemma scan_no_direct_flip (entry exit : Q) (zscore : Series) :
  forall s : PositionState,
    no_direct_flip (spec_scan entry exit s zscore) /\
    (forall a, hd_error (spec_scan entry exit s zscore) = Some a ->
               ~ (s = LongSpread /\ a = ShortSpread) /\
               ~ (s = ShortSpread /\ a = LongSpread)).
Proof.
  induction zscore as [| c rest IH]; intros s.
  - simpl. split; [exact I | discriminate].
  - destruct c as [z |]; simpl.
    + destruct (IH (spec_transition entry exit s z)) as [Hrest Hhd].
      split.
      * destruct (spec_scan entry exit (spec_transition entry exit s z) rest)
          as [| b tl] eqn:E; [exact I |].
        destruct (Hhd b eq_refl) as [H1 H2].
        repeat split; assumption.
      * intros a Ha. injection Ha as <-. apply transition_keeps_side.
    + destruct (IH s) as [Hrest Hhd].
      split.
      * destruct (spec_scan entry exit s rest) as [| b tl] eqn:E; [exact I |].
        repeat split; try assumption; intros [Hf _]; discriminate.
      * intros a Ha. injection Ha as <-. split; intros [_ Hf]; discriminate.
Qed.

(** C1 (as stated, refuted): on the z-scores [0, 2.0, 0.3, 0.0] with entry 1.5
    and exit 0.5 the signals are not [0, -1, -1, 0]. *)
Lemma spec_example_positions_refuted :
  generate_signals_safe [Some 0; Some 2; Some (3 # 10); Some 0] (3 # 2) (1 # 2)
  <> Ok (map signal_value [Flat; ShortSpread; ShortSpread; Flat]).
Proof. vm_compute. discriminate. Qed.

(** C1 (amended): on the z-scores [0, 2.0, 0.3, 0.0] with entry 1.5 and exit
    0.5, [generate_signals_safe] yields Flat, ShortSpread, Flat, Flat (signals
    [0, -1, 0, 0]): it enters on the breach at the second entry and is flat
    again at the third, where |0.3| is below the exit threshold. *)
Theorem tie_break_sequence :
  generate_signals_safe [Some 0; Some 2; Some (3 # 10); Some 0] (3 # 2) (1 # 2)
  = Ok (map signal_value [Flat; ShortSpread; Flat; Flat]).
Proof. vm_compute. reflexivity. Qed.

(** C2: for every z-score series and all thresholds (so for every
    [entry_threshold > 0] and [0 <= exit_threshold < entry_threshold]), the
    signals of [generate_signals_safe] are the outputs of the scan that starts
    in Flat: a missing z-score gives Flat and leaves the carried state alone,
    Flat enters short above the entry threshold and long below its negation,
    an open position closes when |z| is below the exit threshold and is held
    otherwise; the outputs never go from one open side to the other in
    consecutive rows. *)
Theorem generate_signals_refines_scan (zscore : Series) (entry_threshold exit_threshold : Q) :
  generate_signals_safe zscore entry_threshold exit_threshold
  = Ok (map signal_value (spec_scan entry_threshold exit_threshold Flat zscore))
  /\ no_direct_flip (spec_scan entry_threshold exit_threshold Flat zscore).
Proof.
  split.
  - unfold generate_signals_safe. f_equal.
    exact (signals_loop_scan entry_threshold exit_threshold zscore Flat).
  - apply scan_no_direct_flip.
Qed.

(** A run with missing cells: the long position opened at the second row is
    still the carried state at the third (missing) row, whose output is Flat;
    it is held at the fourth row and closed at the fifth. *)
Example scan_through_missing :
  spec_scan (3 # 2) (1 # 2) Flat [None; Some (-2); None; Some 1; Some (1 # 4); Some 2]
  = [Flat; LongSpread; Flat; LongSpread; Flat; ShortSpread].
Proof. vm_compute. reflexivity. Qed.

(** ** Exposure of the positions built from the signals *)

Lemma signals_loop_values (entry exit : Q) (zscore : Series) :
  forall position : Z,
    (position = 0 \/ position = 1 \/ position = -1)%Z ->
    Forall (fun s => s = 0 \/ s = inject_Z 1 \/ s = inject_Z (-1))
           (signals_loop entry exit position zscore).
Proof.
  induction zscore as [| [z |] rest IH]; intros position Hp; simpl.
  - constructor.
  - assert (Hstep : (step_position entry exit position z = 0 \/
                     step_position entry exit position z = 1 \/
                     step_position entry exit position z = -1)%Z).
    { unfold step_position.
      destruct (position =? 0)%Z;
        repeat match goal with |- context [if ?b then _ else _] => destruct b end;
        tauto. }
    constructor; [| apply IH; exact Hstep].
    destruct Hstep as [-> | [-> | ->]]; tauto.
  - constructor; [tauto | apply IH; exact Hp].
Qed.

Lemma cell_map {A : Type} (f : A -> float) (l : list A) (i : nat) (a : A) :
  nth_error l i = Some a -> cell (map f l) i = f a.
Proof.
  intros Hi. unfold cell. rewrite nth_error_map, Hi. reflexivity.
Qed.

Lemma cell_row_sum (c1 c2 : Series) (i : nat) :
  (i < Nat.max (length c1) (length c2))%nat ->
  cell (row_sum c1 c2) i = Some (sum_skipna [cell c1 i; cell c2 i]).
Proof.
  intros Hi. unfold cell at 1, row_sum.
  rewrite nth_error_map, nth_error_seq.
  - apply Nat.ltb_lt in Hi. rewrite Hi. reflexivity.
Qed.

(** C9: at every timestamp where the signal is not 0 (the state is not
    Flat), the positions built as [signal * 0.5] on ticker1 and
    [-signal * 0.5] on ticker2 have net exposure exactly 0 and gross
    exposure exactly 1. *)
Theorem open_position_is_neutral (zscore : Series) (entry_threshold exit_threshold : Q)
    (signals : list Q) (t : nat) (s : Q) :
  generate_signals_safe zscore entry_threshold exit_threshold = Ok signals ->
  nth_error signals t = Some s ->
  ~ s == 0 ->
  feq (cell (net_exposure (make_positions signals)) t) (Some 0) /\
  feq (cell (gross_exposure (make_positions signals)) t) (Some 1).
Proof.
  intros Hgen Ht Hs.
  unfold generate_signals_safe in Hgen. injection Hgen as <-.
  assert (Hval : s = 0 \/ s = inject_Z 1 \/ s = inject_Z (-1)).
  { pose proof (signals_loop_values entry_threshold exit_threshold zscore 0%Z
                  (or_introl eq_refl)) as Hall.
    rewrite Forall_forall in Hall. apply Hall.
    eapply nth_error_In; exact Ht. }
  assert (Hlen : (t < length (signals_loop entry_threshold exit_threshold 0 zscore))%nat).
  { apply nth_error_Some. rewrite Ht. discriminate. }
  set (sig := signals_loop entry_threshold exit_threshold 0 zscore) in *.
  assert (Hw : nth_error (make_positions sig) t
               = Some (mkWeights (s * (1 # 2)) (- s * (1 # 2)))).
  { unfold make_positions. rewrite nth_error_map, Ht. reflexivity. }
  unfold net_exposure, gross_exposure.
  rewrite !cell_row_sum by (rewrite !length_map; unfold make_positions;
                            rewrite length_map; lia).
  rewrite !(cell_map _ _ _ _ Hw). simpl.
  destruct Hval as [-> | [-> | ->]].
  - exfalso. apply Hs. reflexivity.
  - split; vm_compute; reflexivity.
  - split; vm_compute; reflexivity.
Qed.

Lemma open_position_is_neutral_witness :
  feq (cell (net_exposure (make_positions [0; inject_Z (-1); 0; 0])) 1) (Some 0) /\
  feq (cell (gross_exposure (make_positions [0; inject_Z (-1); 0; 0])) 1) (Some 1).
Proof.
  apply (open_position_is_neutral
           [Some 0; Some 2; Some (3 # 10); Some 0] (3 # 2) (1 # 2)
           [0; inject_Z (-1); 0; 0] 1 (inject_Z (-1))).
  - vm_compute. reflexivity.
  - reflexivity.
  - discriminate.
Defined.

(** ** Warm-up of the rolling window *)

Lemma zip3_length (f : float -> float -> float -> float) (a b c : Series) :
  length b = length a -> length c = length a ->
  length (zip3 f a b c) = length a.
Proof.
  revert b c. induction a as [| x a IH]; intros [| y b] [| z c]; simpl;
    try discriminate; try reflexivity.
  intros Hb Hc. f_equal. apply IH; congruence.
Qed.

Lemma zip3_cell (f : float -> float -> float -> float) (a b c : Series) (i : nat) :
  length b = length a -> length c = length a -> (i < length a)%nat ->
  nth_error (zip3 f a b c) i = Some (f (cell a i) (cell b i) (cell c i)).
Proof.
  revert b c i. induction a as [| x a IH]; intros [| y b] [| z c] i; simpl;
    try discriminate; try lia.
  intros Hb Hc Hi. destruct i as [| i]; [reflexivity |].
  unfold cell. simpl. apply IH; try congruence. lia.
Qed.

Lemma rolling_length (agg : list Q -> float) (w : nat) (s : Series) :
  length (rolling agg w s) = length s.
Proof. unfold rolling. rewrite length_map, length_seq. reflexivity. Qed.

Lemma rolling_warm_up (agg : list Q -> float) (w : nat) (s : Series) (i : nat) :
  (i < w - 1)%nat -> cell (rolling agg w s) i = None.
Proof.
  intros Hi. unfold cell, rolling.
  rewrite nth_error_map, nth_error_seq.
  destruct (i <? length s)%nat; simpl; [| reflexivity].
  unfold window_at.
  replace (w <=? S i)%nat with false; [reflexivity |].
  symmetry. apply Nat.leb_gt. lia.
Qed.

Lemma signals_loop_missing (entry exit : Q) (zscore : Series) :
  forall (position : Z) (i : nat),
    nth_error zscore i = Some None ->
    nth_error (signals_loop entry exit position zscore) i = Some 0.
Proof.
  induction zscore as [| c rest IH]; intros position i Hi.
  - destruct i; discriminate.
  - destruct i as [| i]; simpl in Hi.
    + injection Hi as ->. reflexivity.
    + destruct c as [z |]; simpl; apply IH; exact Hi.
Qed.

Lemma zscore_length `{FloatLib} (prices : list PriceRow) (window : nat) (zscore : Series) :
  calculate_zscore_safe prices window = Ok zscore ->
  length zscore = length prices.
Proof.
  unfold calculate_zscore_safe.
  destruct (existsb is_zero (price_ratio prices) || forallb isnull (price_ratio prices));
    [discriminate |].
  intros Hz. injection Hz as <-.
  rewrite zip3_length.
  - unfold price_ratio. apply length_map.
  - apply rolling_length.
  - rewrite length_map. apply rolling_length.
Qed.

Lemma zscore_warm_up `{FloatLib} (prices : list PriceRow) (window : nat) (zscore : Series)
    (i : nat) :
  calculate_zscore_safe prices window = Ok zscore ->
  (i < window - 1)%nat -> (i < length prices)%nat ->
  nth_error zscore i = Some None.
Proof.
  unfold calculate_zscore_safe.
  destruct (existsb is_zero (price_ratio prices) || forallb isnull (price_ratio prices));
    [discriminate |].
  intros Hz Hi Hlen. injection Hz as <-.
  rewrite zip3_cell.
  - rewrite (rolling_warm_up mean window _ i Hi).
    destruct (cell (price_ratio prices) i); reflexivity.
  - apply rolling_length.
  - rewrite length_map. apply rolling_length.
  - unfold price_ratio. rewrite length_map. exact Hlen.
Qed.

(** C8: when [calculate_zscore_safe] produces a z-score series for a panel
    and a window [w], the series has one entry per row, each of its first
    [w - 1] entries is missing, and the signal of [generate_signals_safe] is 0
    (Flat) at each of those timestamps. *)
Theorem warm_up_is_flat `{FloatLib} (prices : list PriceRow) (window : nat)
    (zscore : Series) (entry_threshold exit_threshold : Q) (i : nat) :
  calculate_zscore_safe prices window = Ok zscore ->
  (i < window - 1)%nat ->
  (i < length prices)%nat ->
  length zscore = length prices /\
  nth_error zscore i = Some None /\
  exists signals,
    generate_signals_safe zscore entry_threshold exit_threshold = Ok signals /\
    nth_error signals i = Some 0.
Proof.
  intros Hz Hi Hlen.
  pose proof (zscore_warm_up prices window zscore i Hz Hi Hlen) as Hmiss.
  split; [exact (zscore_length prices window zscore Hz) |].
  split; [exact Hmiss |].
  eexists. split; [reflexivity |].
  apply signals_loop_missing. exact Hmiss.
Qed.

Lemma warm_up_is_flat_witness :
  exists zscore,
    calculate_zscore_safe (H := approx_lib) sample_panel 3 = Ok zscore /\
    length zscore = length sample_panel /\
    nth_error zscore 1 = Some None /\
    exists signals,
      generate_signals_safe zscore (3 # 2) (1 # 2) = Ok signals /\
      nth_error signals 1 = Some 0.
Proof.
  eexists. split; [vm_compute; reflexivity |].
  apply (warm_up_is_flat (H := approx_lib) sample_panel 3 _ (3 # 2) (1 # 2) 1).
  - vm_compute. reflexivity.
  - simpl. lia.
  - simpl. lia.
Defined.

(** ** Cells of the aligned series *)

Lemma cell_beyond (s : Series) (i : nat) : (length s <= i)%nat -> cell s i = None.
Proof.
  intros Hi. unfold cell. apply nth_error_None in Hi. rewrite Hi. reflexivity.
Qed.

Lemma cell_nth (s : Series) (i : nat) (c : float) :
  nth_error s i = Some c -> cell s i = c.
Proof. intros Hi. unfold cell. rewrite Hi. reflexivity. Qed.

Lemma nth_cell (s : Series) (i : nat) :
  (i < length s)%nat -> nth_error s i = Some (cell s i).
Proof.
  intros Hi. unfold cell.
  destruct (nth_error s i) eqn:E; [reflexivity |].
  apply nth_error_None in E. lia.
Qed.

Lemma align_length (f : float -> float -> float) (a b : Series) :
  length (align f a b) = Nat.max (length a) (length b).
Proof. unfold align. rewrite length_map, length_seq. reflexivity. Qed.

Lemma cell_align (f : float -> float -> float) (a b : Series) (i : nat) :
  (i < Nat.max (length a) (length b))%nat ->
  cell (align f a b) i = f (cell a i) (cell b i).
Proof.
  intros Hi. unfold cell at 1, align.
  rewrite nth_error_map, nth_error_seq.
  apply Nat.ltb_lt in Hi. rewrite Hi. reflexivity.
Qed.

Lemma row_sum_length (c1 c2 : Series) :
  length (row_sum c1 c2) = Nat.max (length c1) (length c2).
Proof. unfold row_sum. rewrite length_map, length_seq. reflexivity. Qed.

Lemma shift_from_length (prev : float) (col : list Q) :
  length (shift_from prev col) = length col.
Proof.
  revert prev. induction col as [| x col IH]; intros prev; simpl;
    [reflexivity | rewrite IH; reflexivity].
Qed.

Lemma shift1_length (col : list Q) : length (shift1 col) = length col.
Proof. apply shift_from_length. Qed.

Lemma cell_shift1_first (col : list Q) : cell (shift1 col) 0 = None.
Proof. destruct col; reflexivity. Qed.

Lemma cell_shift_from_next (col : list Q) :
  forall (prev : float) (i : nat) (x : Q),
    nth_error col i = Some x -> (S i < length col)%nat ->
    cell (shift_from prev col) (S i) = Some x.
Proof.
  induction col as [| y col IH]; intros prev i x Hx Hlen.
  - destruct i; discriminate.
  - destruct i as [| i]; simpl in *.
    + injection Hx as ->. destruct col; [simpl in Hlen; lia | reflexivity].
    + unfold cell. simpl.
      apply (IH (Some y) i x Hx). lia.
Qed.

Lemma cell_shift1_next (col : list Q) (i : nat) (x : Q) :
  nth_error col i = Some x -> (S i < length col)%nat ->
  cell (shift1 col) (S i) = Some x.
Proof. apply cell_shift_from_next. Qed.

Lemma pct_change_length (col : list Q) : length (pct_change col) = length col.
Proof.
  unfold pct_change. rewrite align_length, length_map, shift1_length. lia.
Qed.

Lemma diff_length (col : list Q) : length (diff col) = length col.
Proof.
  unfold diff. rewrite align_length, length_map, shift1_length. lia.
Qed.

Lemma cell_pct_change_first (col : list Q) : cell (pct_change col) 0 = None.
Proof.
  destruct col as [| x col]; [reflexivity |].
  unfold pct_change. rewrite cell_align by (simpl; lia).
  rewrite cell_shift1_first. reflexivity.
Qed.

Lemma cell_diff_first (col : list Q) : cell (diff col) 0 = None.
Proof.
  destruct col as [| x col]; [reflexivity |].
  unfold diff. rewrite cell_align by (simpl; lia).
  rewrite cell_shift1_first. reflexivity.
Qed.

Lemma cell_map_Some (col : list Q) (i : nat) (x : Q) :
  nth_error col i = Some x -> cell (map Some col) i = Some x.
Proof.
  intros Hi. unfold cell. rewrite nth_error_map, Hi. reflexivity.
Qed.

Lemma cell_pct_change_next (col : list Q) (i : nat) (a b : Q) :
  nth_error col i = Some a -> nth_error col (S i) = Some b -> ~ a == 0 ->
  cell (pct_change col) (S i) = Some (b / a - 1).
Proof.
  intros Ha Hb Hnz.
  assert (Hlen : (S i < length col)%nat).
  { apply nth_error_Some. rewrite Hb. discriminate. }
  unfold pct_change.
  rewrite cell_align by (rewrite length_map; lia).
  rewrite (cell_shift1_next col i a Ha Hlen).
  rewrite (cell_map_Some col (S i) b Hb).
  simpl. apply Qeqb_neq in Hnz. rewrite Hnz. reflexivity.
Qed.

Lemma strategy_returns_length (prices : list PriceRow) (positions : list Weights) :
  length (strategy_returns prices positions)
  = Nat.max (length positions) (length prices).
Proof.
  unfold strategy_returns, price_returns1, price_returns2.
  rewrite row_sum_length, !align_length, !shift1_length, !pct_change_length, !length_map.
  lia.
Qed.

Lemma turnover_length (positions : list Weights) :
  length (turnover positions) = length positions.
Proof.
  unfold turnover.
  rewrite row_sum_length, !length_map, !diff_length, !length_map. lia.
Qed.

Lemma transaction_costs_length (positions : list Weights) (tc_bps : Q) :
  length (transaction_costs positions tc_bps) = length positions.
Proof. unfold transaction_costs. rewrite length_map. apply turnover_length. Qed.

Lemma net_returns_length (prices : list PriceRow) (positions : list Weights) (tc_bps : Q) :
  length (net_returns prices positions tc_bps)
  = Nat.max (length positions) (length prices).
Proof.
  unfold net_returns.
  rewrite align_length, strategy_returns_length, transaction_costs_length. lia.
Qed.

Lemma cell_strategy_returns (prices : list PriceRow) (positions : list Weights) (i : nat) :
  (i < Nat.max (length positions) (length prices))%nat ->
  cell (strategy_returns prices positions) i
  = Some (sum_skipna
            [fmul (cell (shift1 (map weight1 positions)) i) (cell (price_returns1 prices) i);
             fmul (cell (shift1 (map weight2 positions)) i) (cell (price_returns2 prices) i)]).
Proof.
  intros Hi. unfold strategy_returns.
  assert (Hl : forall (f : Weights -> Q) (g : PriceRow -> Q),
             Nat.max (length (shift1 (map f positions))) (length (pct_change (map g prices)))
             = Nat.max (length positions) (length prices)).
  { intros f g. rewrite shift1_length, pct_change_length, !length_map. reflexivity. }
  unfold price_returns1, price_returns2.
  rewrite cell_row_sum by (rewrite !align_length, !Hl; lia).
  rewrite !cell_align by (rewrite Hl; exact Hi).
  reflexivity.
Qed.

Lemma cell_turnover (positions : list Weights) (i : nat) :
  (i < length positions)%nat ->
  cell (turnover positions) i
  = Some (sum_skipna [fabs (cell (diff (map weight1 positions)) i);
                      fabs (cell (diff (map weight2 positions)) i)]).
Proof.
  intros Hi. unfold turnover.
  rewrite cell_row_sum by (rewrite !length_map, !diff_length, !length_map; lia).
  assert (Hc : forall col : list Q, (i < length col)%nat ->
                                    cell (map fabs (diff col)) i = fabs (cell (diff col) i)).
  { intros col Hcol. apply cell_map. apply nth_cell. rewrite diff_length. exact Hcol. }
  rewrite !Hc by (rewrite length_map; exact Hi).
  reflexivity.
Qed.

Lemma cell_transaction_costs (positions : list Weights) (tc_bps : Q) (i : nat) :
  (i < length positions)%nat ->
  cell (transaction_costs positions tc_bps) i
  = fmul (cell (turnover positions) i) (Some (tc_cost tc_bps)).
Proof.
  intros Hi. unfold transaction_costs.
  apply (cell_map (fun t => fmul t (Some (tc_cost tc_bps)))).
  apply nth_cell. rewrite turnover_length. exact Hi.
Qed.

Lemma cell_net_returns (prices : list PriceRow) (positions : list Weights) (tc_bps : Q)
    (i : nat) :
  (i < Nat.max (length positions) (length prices))%nat ->
  cell (net_returns prices positions tc_bps) i
  = fsub (cell (strategy_returns prices positions) i)
         (cell (transaction_costs positions tc_bps) i).
Proof.
  intros Hi. unfold net_returns.
  apply cell_align.
  rewrite strategy_returns_length, transaction_costs_length. lia.
Qed.

(** ** Strategy returns use the weights of the previous row *)

Lemma cell_strategy_returns_next (prices : list PriceRow) (positions : list Weights)
    (t : nat) (a b : PriceRow) (w : Weights) :
  length positions = length prices ->
  nth_error prices t = Some a ->
  nth_error prices (S t) = Some b ->
  nth_error positions t = Some w ->
  ~ price1 a == 0 -> ~ price2 a == 0 ->
  cell (strategy_returns prices positions) (S t)
  = Some (sum_skipna [Some (weight1 w * (price1 b / price1 a - 1));
                      Some (weight2 w * (price2 b / price2 a - 1))]).
Proof.
  intros Hlen Ha Hb Hw Hn1 Hn2.
  assert (Hst : (S t < length prices)%nat).
  { apply nth_error_Some. rewrite Hb. discriminate. }
  rewrite cell_strategy_returns by lia.
  unfold price_returns1, price_returns2.
  rewrite (cell_shift1_next (map weight1 positions) t (weight1 w))
    by (rewrite ?nth_error_map, ?Hw, ?length_map; simpl; try reflexivity; lia).
  rewrite (cell_shift1_next (map weight2 positions) t (weight2 w))
    by (rewrite ?nth_error_map, ?Hw, ?length_map; simpl; try reflexivity; lia).
  rewrite (cell_pct_change_next (map price1 prices) t (price1 a) (price1 b))
    by (rewrite ?nth_error_map, ?Ha, ?Hb; simpl; try reflexivity; assumption).
  rewrite (cell_pct_change_next (map price2 prices) t (price2 a) (price2 b))
    by (rewrite ?nth_error_map, ?Ha, ?Hb; simpl; try reflexivity; assumption).
  reflexivity.
Qed.

(** C3: on a panel with positive prices and an index-aligned weight frame,
    the strategy return at each timestamp [t+1] is the sum over the two
    tickers of the weight at [t] times the ticker's simple price return at
    [t+1]; at the first timestamp, which has no previous weight, it is 0; and
    it is the same for every weight frame with the same row [t], so the
    weight chosen at [t+1] never multiplies the price change at [t+1]. *)
Theorem strategy_return_uses_lagged_weight (prices : list PriceRow)
    (positions : list Weights) (t : nat) (a b : PriceRow) (w : Weights) :
  length positions = length prices ->
  nth_error prices t = Some a ->
  nth_error prices (S t) = Some b ->
  nth_error positions t = Some w ->
  0 < price1 a -> 0 < price2 a ->
  feq (cell (strategy_returns prices positions) (S t))
      (Some (weight1 w * (price1 b / price1 a - 1)
             + weight2 w * (price2 b / price2 a - 1)))
  /\ cell (strategy_returns prices positions) 0 = Some 0
  /\ forall positions' : list Weights,
       length positions' = length prices ->
       nth_error positions' t = Some w ->
       cell (strategy_returns prices positions') (S t)
       = cell (strategy_returns prices positions) (S t).
Proof.
  intros Hlen Ha Hb Hw Hp1 Hp2.
  assert (Hn1 : ~ price1 a == 0) by (intros E; rewrite E in Hp1; discriminate).
  assert (Hn2 : ~ price2 a == 0) by (intros E; rewrite E in Hp2; discriminate).
  split; [| split].
  - rewrite (cell_strategy_returns_next prices positions t a b w) by assumption.
    unfold sum_skipna. simpl. ring.
  - assert (Ht : (t < length prices)%nat)
      by (apply nth_error_Some; rewrite Ha; discriminate).
    rewrite cell_strategy_returns by lia.
    rewrite !cell_shift1_first. reflexivity.
  - intros positions' Hlen' Hw'.
    rewrite (cell_strategy_returns_next prices positions t a b w) by assumption.
    apply (cell_strategy_returns_next prices positions' t a b w); assumption.
Qed.

Lemma strategy_return_uses_lagged_weight_witness :
  feq (cell (strategy_returns sample_panel sample_positions) 2)
      (Some ((1 # 2) * (9 / 12 - 1) + (- (1 # 2)) * (10 / 10 - 1))).
Proof.
  apply (strategy_return_uses_lagged_weight sample_panel sample_positions 1
           (mkRow 12 10) (mkRow 9 10) (mkWeights (1 # 2) (- (1 # 2)))).
  - reflexivity.
  - reflexivity.
  - reflexivity.
  - reflexivity.
  - reflexivity.
  - reflexivity.
Defined.

(** ** The first row and the absence of gaps *)

Lemma cell_strategy_returns_first (prices : list PriceRow) (positions : list Weights) :
  (0 < Nat.max (length positions) (length prices))%nat ->
  cell (strategy_returns prices positions) 0 = Some 0.
Proof.
  intros Hlen. rewrite cell_strategy_returns by exact Hlen.
  rewrite !cell_shift1_first. reflexivity.
Qed.

Lemma cell_turnover_first (positions : list Weights) :
  (0 < length positions)%nat -> cell (turnover positions) 0 = Some 0.
Proof.
  intros Hlen. rewrite cell_turnover by exact Hlen.
  rewrite !cell_diff_first. reflexivity.
Qed.

Lemma cell_net_returns_first (prices : list PriceRow) (positions : list Weights)
    (tc_bps : Q) :
  (0 < length positions)%nat ->
  cell (net_returns prices positions tc_bps) 0 = Some (0 - 0 * tc_cost tc_bps).
Proof.
  intros Hlen.
  rewrite cell_net_returns by lia.
  rewrite cell_strategy_returns_first by lia.
  rewrite cell_transaction_costs by exact Hlen.
  rewrite cell_turnover_first by exact Hlen.
  reflexivity.
Qed.

Lemma cell_net_returns_present (prices : list PriceRow) (positions : list Weights)
    (tc_bps : Q) (i : nat) :
  (i < length positions)%nat ->
  exists x, cell (net_returns prices positions tc_bps) i = Some x.
Proof.
  intros Hi.
  rewrite cell_net_returns by lia.
  rewrite cell_strategy_returns by lia.
  rewrite cell_transaction_costs by exact Hi.
  rewrite cell_turnover by exact Hi.
  eexists. reflexivity.
Qed.

Lemma cell_net_returns_absent (prices : list PriceRow) (positions : list Weights)
    (tc_bps : Q) (i : nat) :
  (length positions <= i)%nat ->
  cell (net_returns prices positions tc_bps) i = None.
Proof.
  intros Hi.
  destruct (Nat.lt_ge_cases i (Nat.max (length positions) (length prices))) as [Hlt | Hge].
  - rewrite cell_net_returns by exact Hlt.
    rewrite (cell_beyond (transaction_costs positions tc_bps))
      by (rewrite transaction_costs_length; exact Hi).
    destruct (cell (strategy_returns prices positions) i); reflexivity.
  - apply cell_beyond. rewrite net_returns_length. exact Hge.
Qed.

Lemma Forall_cells (P : float -> Prop) (s : Series) :
  (forall i, (i < length s)%nat -> P (cell s i)) -> Forall P s.
Proof.
  intros Hall. apply Forall_forall. intros c Hin.
  destruct (In_nth_error s c Hin) as [i Hi].
  rewrite <- (cell_nth s i c Hi). apply Hall.
  apply nth_error_Some. rewrite Hi. discriminate.
Qed.

Lemma net_returns_no_missing (prices : list PriceRow) (positions : list Weights)
    (tc_bps : Q) :
  length positions = length prices ->
  Forall (fun c => c <> None) (net_returns prices positions tc_bps).
Proof.
  intros Hlen. apply Forall_cells. intros i Hi.
  rewrite net_returns_length in Hi.
  destruct (cell_net_returns_present prices positions tc_bps i) as [x Hx]; [lia |].
  rewrite Hx. discriminate.
Qed.

Lemma dropna_from_length (s : Series) :
  forall i : nat,
    Forall (fun c => c <> None) s -> length (dropna_from i s) = length s.
Proof.
  induction s as [| c rest IH]; intros i Hall; [reflexivity |].
  inversion Hall as [| ? ? Hc Hrest]; subst.
  destruct c as [x |]; [| contradiction].
  simpl. rewrite IH by exact Hrest. reflexivity.
Qed.

Lemma cumprod_from_length (s : Series) :
  forall acc : Q, length (cumprod_from acc s) = length s.
Proof.
  induction s as [| [x |] rest IH]; intros acc; simpl;
    [reflexivity | rewrite IH; reflexivity | rewrite IH; reflexivity].
Qed.

Lemma equity_curve_length (prices : list PriceRow) (positions : list Weights) (tc_bps : Q) :
  length (equity_curve prices positions tc_bps)
  = Nat.max (length positions) (length prices).
Proof.
  unfold equity_curve, cumprod.
  rewrite cumprod_from_length, length_map. apply net_returns_length.
Qed.

Lemma cell_equity_curve_first (prices : list PriceRow) (positions : list Weights)
    (tc_bps : Q) :
  (0 < length positions)%nat ->
  cell (equity_curve prices positions tc_bps) 0
  = Some (1 * (1 + (0 - 0 * tc_cost tc_bps))).
Proof.
  intros Hlen.
  pose proof (cell_net_returns_first prices positions tc_bps Hlen) as Hfirst.
  unfold equity_curve, cumprod.
  destruct (net_returns prices positions tc_bps) as [| c rest] eqn:E.
  - discriminate Hfirst.
  - unfold cell in Hfirst. simpl in Hfirst. subst c. reflexivity.
Qed.

(** C10: for every non-empty panel of positive prices and every
    index-aligned position frame, no net return is missing, the first net
    return is 0, the first value of the equity curve is 1, and the cleaned
    return series has as many entries as the panel. *)
Theorem net_returns_have_no_gap (prices : list PriceRow) (positions : list Weights)
    (tc_bps : Q) :
  prices <> [] ->
  positive_panel prices ->
  length positions = length prices ->
  Forall (fun c => c <> None) (net_returns prices positions tc_bps) /\
  feq (cell (net_returns prices positions tc_bps) 0) (Some 0) /\
  feq (cell (equity_curve prices positions tc_bps) 0) (Some 1) /\
  length (returns_clean prices positions tc_bps) = length prices.
Proof.
  intros Hne _ Hlen.
  assert (Hpos : (0 < length positions)%nat).
  { rewrite Hlen. destruct prices; [contradiction | simpl; lia]. }
  pose proof (net_returns_no_missing prices positions tc_bps Hlen) as Hall.
  split; [exact Hall |].
  split; [| split].
  - rewrite cell_net_returns_first by exact Hpos. simpl. ring.
  - rewrite cell_equity_curve_first by exact Hpos. simpl. ring.
  - unfold returns_clean, dropna.
    rewrite dropna_from_length by exact Hall.
    rewrite net_returns_length. lia.
Qed.

Lemma net_returns_have_no_gap_witness :
  Forall (fun c => c <> None) (net_returns sample_panel sample_positions 10) /\
  feq (cell (net_returns sample_panel sample_positions 10) 0) (Some 0) /\
  feq (cell (equity_curve sample_panel sample_positions 10) 0) (Some 1) /\
  length (returns_clean sample_panel sample_positions 10) = length sample_panel.
Proof.
  apply (net_returns_have_no_gap sample_panel sample_positions 10).
  - discriminate.
  - repeat constructor.
  - reflexivity.
Defined.

(** ** What [run_backtest_safe] returns *)

Lemma years_nonzero (n : nat) :
  (0 < n)%nat -> Qeqb (inject_Z (Z.of_nat n) / 252) 0 = false.
Proof.
  intros Hn. apply Qeqb_neq. intros E.
  assert (Hq : 0 < inject_Z (Z.of_nat n)).
  { unfold Qlt. simpl. lia. }
  unfold Qdiv in E. apply Qmult_integral in E. destruct E as [E | E].
  - rewrite E in Hq. discriminate.
  - discriminate.
Qed.

Lemma run_backtest_safe_fail_empty `{FloatLib} (prices : list PriceRow)
    (positions : list Weights) (tc_bps : Q) (benchmark : Benchmark) :
  returns_clean prices positions tc_bps = [] ->
  run_backtest_safe prices positions tc_bps benchmark = Fail EmptyReturnSeries.
Proof.
  intros E. unfold run_backtest_safe. rewrite E. reflexivity.
Qed.

Lemma run_backtest_safe_ok `{FloatLib} (prices : list PriceRow)
    (positions : list Weights) (tc_bps : Q) (benchmark : Benchmark) :
  returns_clean prices positions tc_bps <> [] ->
  exists res,
    run_backtest_safe prices positions tc_bps benchmark = Ok res /\
    res_returns res = net_returns prices positions tc_bps /\
    res_equity_curve res = equity_curve prices positions tc_bps /\
    res_drawdown res = drawdown prices positions tc_bps /\
    res_gross_exposure res = gross_exposure positions /\
    res_net_exposure res = net_exposure positions /\
    res_turnover res = turnover positions /\
    metric "Beta vs Market" (res_metrics res)
    = round_nd (fst (market_beta prices positions tc_bps benchmark)) 3 /\
    metric "Correlation vs Market" (res_metrics res)
    = round_nd (snd (market_beta prices positions tc_bps benchmark)) 3 /\
    metric "Trading Days" (res_metrics res)
    = Some (inject_Z (Z.of_nat (length (returns_clean prices positions tc_bps)))).
Proof.
  intros Hne. unfold run_backtest_safe.
  destruct (returns_clean prices positions tc_bps) as [| r rest] eqn:E;
    [contradiction |].
  replace (length (r :: rest) =? 0)%nat with false by reflexivity.
  rewrite years_nonzero by (simpl; lia).
  destruct (market_beta prices positions tc_bps benchmark) as [beta correlation].
  eexists. split; [reflexivity |].
  repeat split; reflexivity.
Qed.

Lemma run_backtest_safe_inv `{FloatLib} (prices : list PriceRow)
    (positions : list Weights) (tc_bps : Q) (benchmark : Benchmark)
    (res : BacktestResult) :
  run_backtest_safe prices positions tc_bps benchmark = Ok res ->
  returns_clean prices positions tc_bps <> [] /\
  res_equity_curve res = equity_curve prices positions tc_bps /\
  res_drawdown res = drawdown prices positions tc_bps.
Proof.
  intros Hrun.
  destruct (returns_clean prices positions tc_bps) as [| r rest] eqn:E.
  - rewrite (run_backtest_safe_fail_empty prices positions tc_bps benchmark E) in Hrun.
    discriminate.
  - split; [discriminate |].
    destruct (run_backtest_safe_ok prices positions tc_bps benchmark)
      as (res' & Hres' & _ & Heq & Hdd & _).
    + rewrite E. discriminate.
    + rewrite Hrun in Hres'. injection Hres' as <-. split; assumption.
Qed.

(** ** Drawdown *)

Lemma expanding_max_from_bounds (s : Series) :
  forall (m0 : Q) (i : nat) (e : Q),
    1 <= m0 ->
    nth_error s i = Some (Some e) ->
    exists m, nth_error (expanding_max_from (Some m0) s) i = Some (Some m) /\
              e <= m /\ 1 <= m.
Proof.
  induction s as [| c rest IH]; intros m0 i e Hm Hi.
  - destruct i; discriminate.
  - destruct i as [| i]; simpl in Hi.
    + injection Hi as ->. simpl. exists (Qmax m0 e).
      split; [reflexivity |]. split; [apply Q.le_max_r |].
      apply Qle_trans with m0; [exact Hm | apply Q.le_max_l].
    + destruct c as [x |]; simpl.
      * apply IH; [| exact Hi].
        apply Qle_trans with m0; [exact Hm | apply Q.le_max_l].
      * apply IH; assumption.
Qed.

Lemma expanding_max_bounds (s : Series) (e0 : Q) (i : nat) (e : Q) :
  nth_error s 0 = Some (Some e0) ->
  1 <= e0 ->
  nth_error s i = Some (Some e) ->
  exists m, nth_error (expanding_max s) i = Some (Some m) /\ e <= m /\ 1 <= m.
Proof.
  intros H0 He0 Hi.
  destruct s as [| c rest]; [discriminate |].
  simpl in H0. injection H0 as ->.
  unfold expanding_max. simpl.
  destruct i as [| i]; simpl in Hi.
  - injection Hi as <-. exists e0.
    split; [reflexivity |]. split; [apply Qle_refl | exact He0].
  - simpl. apply expanding_max_from_bounds; assumption.
Qed.

Lemma expanding_max_from_length (s : Series) :
  forall cur : float, length (expanding_max_from cur s) = length s.
Proof.
  induction s as [| c rest IH]; intros cur; simpl;
    [reflexivity | rewrite IH; reflexivity].
Qed.

Lemma cumprod_from_present (s : Series) :
  forall (acc : Q) (i : nat) (x : Q),
    nth_error s i = Some (Some x) ->
    exists e, nth_error (cumprod_from acc s) i = Some (Some e).
Proof.
  induction s as [| c rest IH]; intros acc i x Hi.
  - destruct i; discriminate.
  - destruct i as [| i]; simpl in Hi.
    + injection Hi as ->. simpl. eexists. reflexivity.
    + destruct c as [y |]; simpl; eapply IH; exact Hi.
Qed.

Lemma cell_equity_curve_present (prices : list PriceRow) (positions : list Weights)
    (tc_bps : Q) (i : nat) :
  (i < length positions)%nat ->
  exists e, nth_error (equity_curve prices positions tc_bps) i = Some (Some e).
Proof.
  intros Hi.
  destruct (cell_net_returns_present prices positions tc_bps i Hi) as [x Hx].
  unfold equity_curve, cumprod.
  apply (cumprod_from_present _ 1 i (1 + x)).
  rewrite nth_error_map, nth_cell by (rewrite net_returns_length; lia).
  rewrite Hx. reflexivity.
Qed.

Lemma drawdown_length (prices : list PriceRow) (positions : list Weights) (tc_bps : Q) :
  length (drawdown prices positions tc_bps)
  = Nat.max (length positions) (length prices).
Proof.
  unfold drawdown, running_max, expanding_max.
  rewrite length_map, !align_length, expanding_max_from_length, equity_curve_length.
  lia.
Qed.

Lemma cell_drawdown (prices : list PriceRow) (positions : list Weights) (tc_bps : Q)
    (i : nat) :
  (i < Nat.max (length positions) (length prices))%nat ->
  cell (drawdown prices positions tc_bps) i
  = fmul (fdiv (fsub (cell (equity_curve prices positions tc_bps) i)
                     (cell (running_max prices positions tc_bps) i))
               (cell (running_max prices positions tc_bps) i))
         (Some 100).
Proof.
  intros Hi.
  assert (Hrm : length (running_max prices positions tc_bps)
                = Nat.max (length positions) (length prices)).
  { unfold running_max, expanding_max.
    rewrite expanding_max_from_length. apply equity_curve_length. }
  unfold drawdown.
  rewrite (cell_map (fun d => fmul d (Some 100)) _ i
             (cell (align fdiv (align fsub (equity_curve prices positions tc_bps)
                                  (running_max prices positions tc_bps))
                      (running_max prices positions tc_bps)) i)).
  - rewrite cell_align by (rewrite align_length, Hrm, equity_curve_length; lia).
    rewrite cell_align by (rewrite Hrm, equity_curve_length; lia).
    reflexivity.
  - apply nth_cell.
    rewrite !align_length, Hrm, equity_curve_length. lia.
Qed.

Lemma drawdown_cell_bound (prices : list PriceRow) (positions : list Weights)
    (tc_bps : Q) (i : nat) :
  (i < length positions)%nat ->
  exists d, cell (drawdown prices positions tc_bps) i = Some d /\ d <= 0.
Proof.
  intros Hi.
  assert (Hpos : (0 < length positions)%nat) by lia.
  destruct (cell_equity_curve_present prices positions tc_bps i Hi) as [e He].
  assert (H0 : nth_error (equity_curve prices positions tc_bps) 0
               = Some (Some (1 * (1 + (0 - 0 * tc_cost tc_bps))))).
  { rewrite nth_cell by (rewrite equity_curve_length; lia).
    rewrite cell_equity_curve_first by exact Hpos. reflexivity. }
  destruct (expanding_max_bounds _ _ i e H0) as (m & Hm & Hle & Hone);
    [ring_simplify; apply Qle_refl | exact He |].
  rewrite cell_drawdown by lia.
  rewrite (cell_nth _ _ _ He).
  unfold running_max. rewrite (cell_nth _ _ _ Hm).
  simpl.
  assert (Hnz : Qeqb m 0 = false).
  { apply Qeqb_neq. intros E. rewrite E in Hone.
    apply (Qlt_not_le 0 1); [reflexivity | exact Hone]. }
  rewrite Hnz. simpl.
  eexists. split; [reflexivity |].
  assert (Hinv : 0 < / m).
  { apply Qinv_lt_0_compat. apply Qlt_le_trans with 1; [reflexivity | exact Hone]. }
  unfold Qdiv. set (y := / m) in *. clearbody y. nra.
Qed.

(** C7: whenever [run_backtest_safe] returns a result for a panel of
    positive prices and an index-aligned position frame, the drawdown series
    has one entry per row and every entry is a number less than or equal
    to 0. *)
Theorem drawdown_never_positive `{FloatLib} (prices : list PriceRow)
    (positions : list Weights) (tc_bps : Q) (benchmark : Benchmark)
    (res : BacktestResult) :
  positive_panel prices ->
  length positions = length prices ->
  run_backtest_safe prices positions tc_bps benchmark = Ok res ->
  length (res_drawdown res) = length prices /\
  Forall (fun c => exists d, c = Some d /\ d <= 0) (res_drawdown res).
Proof.
  intros _ Hlen Hrun.
  destruct (run_backtest_safe_inv prices positions tc_bps benchmark res Hrun)
    as (_ & _ & ->).
  split.
  - rewrite drawdown_length. lia.
  - apply Forall_cells. intros i Hi.
    rewrite drawdown_length in Hi.
    apply drawdown_cell_bound. lia.
Qed.

Lemma drawdown_never_positive_witness :
  exists res,
    run_backtest_safe (H := approx_lib) sample_panel sample_positions 10
      sample_benchmark = Ok res /\
    length (res_drawdown res) = length sample_panel /\
    Forall (fun c => exists d, c = Some d /\ d <= 0) (res_drawdown res).
Proof.
  eexists. split; [vm_compute; reflexivity |].
  apply (drawdown_never_positive (H := approx_lib) sample_panel sample_positions 10
           sample_benchmark).
  - repeat constructor.
  - reflexivity.
  - vm_compute. reflexivity.
Defined.

(** ** When the backtest reports an empty return series *)

Lemma dropna_from_nil (s : Series) :
  forall i : nat, dropna_from i s = [] <-> Forall (fun c => c = None) s.
Proof.
  induction s as [| c rest IH]; intros i; simpl.
  - split; [constructor | reflexivity].
  - destruct c as [x |].
    + split; [discriminate |].
      intros Hall. inversion Hall; discriminate.
    + rewrite IH. split.
      * intros Hrest. constructor; [reflexivity | exact Hrest].
      * intros Hall. inversion Hall; assumption.
Qed.

Lemma returns_clean_nil (prices : list PriceRow) (positions : list Weights) (tc_bps : Q) :
  returns_clean prices positions tc_bps = [] <-> positions = [].
Proof.
  unfold returns_clean, dropna. rewrite dropna_from_nil. split.
  - intros Hall. destruct positions as [| w rest]; [reflexivity |].
    exfalso.
    destruct (cell_net_returns_present prices (w :: rest) tc_bps 0) as [x Hx];
      [simpl; lia |].
    rewrite Forall_forall in Hall.
    assert (Hin : In (Some x) (net_returns prices (w :: rest) tc_bps)).
    { apply (nth_error_In _ 0). rewrite nth_cell, Hx; [reflexivity |].
      rewrite net_returns_length. cbn [length]. lia. }
    specialize (Hall _ Hin). discriminate.
  - intros ->. apply Forall_cells. intros i _.
    apply cell_net_returns_absent. simpl. lia.
Qed.

Lemma run_backtest_safe_empty_iff `{FloatLib} (prices : list PriceRow)
    (positions : list Weights) (tc_bps : Q) (benchmark : Benchmark) :
  run_backtest_safe prices positions tc_bps benchmark = Fail EmptyReturnSeries
  <-> returns_clean prices positions tc_bps = [].
Proof.
  split.
  - intros Hfail.
    destruct (returns_clean prices positions tc_bps) as [| r rest] eqn:E;
      [reflexivity |].
    destruct (run_backtest_safe_ok prices positions tc_bps benchmark) as (res & Hres & _).
    + rewrite E. discriminate.
    + rewrite Hfail in Hres. discriminate.
  - apply run_backtest_safe_fail_empty.
Qed.

(** ** A flat position frame earns nothing *)

Lemma zero_cell_fmul (c d : float) : zero_cell c -> zero_cell (fmul c d).
Proof.
  destruct c as [x |], d as [y |]; simpl; trivial.
  intros E. rewrite E. ring.
Qed.

Lemma zero_cell_fsub (c d : float) : zero_cell c -> zero_cell d -> zero_cell (fsub c d).
Proof.
  destruct c as [x |], d as [y |]; simpl; trivial.
  intros Ex Ey. rewrite Ex, Ey. ring.
Qed.

Lemma zero_cell_fabs (c : float) : zero_cell c -> zero_cell (fabs c).
Proof.
  destruct c as [x |]; simpl; trivial.
  intros E. rewrite E. reflexivity.
Qed.

Lemma sum_skipna_zero (c d : float) :
  zero_cell c -> zero_cell d -> sum_skipna [c; d] == 0.
Proof.
  unfold sum_skipna.
  destruct c as [x |], d as [y |]; simpl; intros Hc Hd;
    rewrite ?Hc, ?Hd; ring.
Qed.

Lemma zero_cell_shift_from (col : list Q) :
  forall (prev : float) (i : nat),
    zero_cell prev -> Forall (fun x => x == 0) col ->
    zero_cell (cell (shift_from prev col) i).
Proof.
  induction col as [| x col IH]; intros prev i Hprev Hall.
  - destruct i; exact I.
  - inversion Hall as [| ? ? Hx Hrest]; subst.
    destruct i as [| i]; [exact Hprev |].
    unfold cell. simpl. apply (IH (Some x) i); assumption.
Qed.

Lemma zero_cell_column (col : list Q) (i : nat) :
  Forall (fun x => x == 0) col -> zero_cell (cell (map Some col) i).
Proof.
  intros Hall. unfold cell. rewrite nth_error_map.
  destruct (nth_error col i) as [x |] eqn:E; simpl; [| exact I].
  rewrite Forall_forall in Hall. apply Hall. eapply nth_error_In; exact E.
Qed.

Lemma flat_frame_columns (positions : list Weights) :
  flat_frame positions ->
  Forall (fun x => x == 0) (map weight1 positions) /\
  Forall (fun x => x == 0) (map weight2 positions).
Proof.
  intros Hflat. split; apply Forall_map;
    (eapply Forall_impl; [| exact Hflat]); intros w [H1 H2]; assumption.
Qed.

Lemma net_returns_flat (prices : list PriceRow) (positions : list Weights)
    (tc_bps : Q) (i : nat) :
  flat_frame positions ->
  (i < length positions)%nat ->
  feq (cell (net_returns prices positions tc_bps) i) (Some 0).
Proof.
  intros Hflat Hi.
  destruct (flat_frame_columns positions Hflat) as [H1 H2].
  rewrite cell_net_returns by lia.
  rewrite cell_strategy_returns by lia.
  rewrite cell_transaction_costs by exact Hi.
  rewrite cell_turnover by exact Hi.
  unfold diff.
  rewrite !cell_align by (rewrite !length_map, shift1_length, length_map; lia).
  simpl.
  rewrite !sum_skipna_zero.
  - ring.
  - apply zero_cell_fabs, zero_cell_fsub;
      [apply zero_cell_column | apply zero_cell_shift_from]; trivial; exact I.
  - apply zero_cell_fabs, zero_cell_fsub;
      [apply zero_cell_column | apply zero_cell_shift_from]; trivial; exact I.
  - apply zero_cell_fmul, zero_cell_shift_from; trivial; exact I.
  - apply zero_cell_fmul, zero_cell_shift_from; trivial; exact I.
Qed.

(** ** The pipeline on a panel shorter than the window *)

Lemma price_ratio_positive (prices : list PriceRow) :
  positive_panel prices ->
  Forall (fun c => exists x, c = Some x /\ 0 < x) (price_ratio prices).
Proof.
  intros Hpos. unfold price_ratio. apply Forall_map.
  eapply Forall_impl; [| exact Hpos].
  intros r [H1 H2]. simpl.
  assert (Hnz : Qeqb (price2 r) 0 = false).
  { apply Qeqb_neq. intros E. rewrite E in H2. discriminate. }
  rewrite Hnz. eexists. split; [reflexivity |].
  apply Qlt_shift_div_l; [exact H2 | lra].
Qed.

Lemma calculate_zscore_safe_ok `{FloatLib} (prices : list PriceRow) (window : nat) :
  prices <> [] -> positive_panel prices ->
  exists zscore, calculate_zscore_safe prices window = Ok zscore.
Proof.
  intros Hne Hpos.
  pose proof (price_ratio_positive prices Hpos) as Hratio.
  unfold calculate_zscore_safe.
  assert (Hz : existsb is_zero (price_ratio prices) = false).
  { apply not_true_iff_false. intros Hex.
    apply existsb_exists in Hex. destruct Hex as (c & Hin & Hc).
    rewrite Forall_forall in Hratio.
    destruct (Hratio c Hin) as (x & -> & Hx).
    simpl in Hc. apply Qeqb_eq in Hc. rewrite Hc in Hx. discriminate. }
  assert (Hn : forallb isnull (price_ratio prices) = false).
  { destruct prices as [| r rest]; [contradiction |].
    inversion Hratio as [| ? ? (x & Hx & _) _]; subst.
    simpl in *. rewrite Hx. reflexivity. }
  rewrite Hz, Hn. eexists. reflexivity.
Qed.

Lemma signals_loop_all_missing (entry exit : Q) (zscore : Series) :
  forall position : Z,
    Forall (fun c => c = None) zscore ->
    signals_loop entry exit position zscore = repeat 0 (length zscore).
Proof.
  induction zscore as [| c rest IH]; intros position Hall; [reflexivity |].
  inversion Hall as [| ? ? Hc Hrest]; subst.
  simpl. rewrite IH by exact Hrest. reflexivity.
Qed.

Lemma flat_frame_of_zero_signals (n : nat) : flat_frame (make_positions (repeat 0 n)).
Proof.
  unfold flat_frame, make_positions. apply Forall_map.
  apply Forall_forall. intros s Hs. apply repeat_spec in Hs. subst s.
  split; reflexivity.
Qed.

Lemma make_positions_length (signals : list Q) :
  length (make_positions signals) = length signals.
Proof. apply length_map. Qed.

(** C5 (as stated, refuted): a non-empty panel of six rows run with a
    rolling window of ten has only missing z-scores, and the backtest does
    not fail with the empty-return-series error. *)
Lemma short_panel_does_not_fail :
  sample_panel <> [] /\
  (length sample_panel < 10)%nat /\
  calculate_zscore_safe (H := approx_lib) sample_panel 10
  = Ok [None; None; None; None; None; None] /\
  pipeline (H := approx_lib) sample_panel sample_benchmark
    10 (3 # 2) (1 # 2) 10
  <> Fail EmptyReturnSeries.
Proof.
  split; [discriminate |]. split; [simpl; lia |].
  split; vm_compute; [reflexivity | discriminate].
Qed.

(** C5 (amended): [run_backtest_safe] fails with the empty-return-series
    error exactly when no net return is left after dropping the missing
    ones, which for index-aligned frames happens exactly when the panel has
    no row.  For a non-empty panel of positive prices with fewer rows than the
    rolling window every z-score is missing, every signal is 0 (Flat), and the
    backtest returns a result with one net return per row, each equal
    to 0. *)
Theorem empty_return_series_only_without_rows `{FloatLib} (prices : list PriceRow)
    (positions : list Weights) (tc_bps : Q) (benchmark : Benchmark)
    (window : nat) (entry_threshold exit_threshold : Q) :
  (run_backtest_safe prices positions tc_bps benchmark = Fail EmptyReturnSeries
   <-> returns_clean prices positions tc_bps = []) /\
  (length positions = length prices ->
   (returns_clean prices positions tc_bps = [] <-> prices = [])) /\
  (prices <> [] -> positive_panel prices -> (length prices < window)%nat ->
   exists zscore res,
     calculate_zscore_safe prices window = Ok zscore /\
     Forall (fun c => c = None) zscore /\
     generate_signals_safe zscore entry_threshold exit_threshold
     = Ok (repeat 0 (length prices)) /\
     pipeline prices benchmark window entry_threshold exit_threshold tc_bps = Ok res /\
     length (res_returns res) = length prices /\
     Forall (fun c => feq c (Some 0)) (res_returns res)).
Proof.
  split; [apply run_backtest_safe_empty_iff |].
  split.
  - intros Hlen. rewrite returns_clean_nil.
    split; intros E; [rewrite E in Hlen | rewrite E in Hlen];
      simpl in Hlen; [symmetry in Hlen |]; apply length_zero_iff_nil; exact Hlen.
  - intros Hne Hpos Hshort.
    destruct (calculate_zscore_safe_ok prices window Hne Hpos) as [zscore Hz].
    pose proof (zscore_length prices window zscore Hz) as Hzl.
    assert (Hmiss : Forall (fun c : float => c = None) zscore).
    { apply Forall_cells. intros i Hi.
      apply cell_nth.
      apply (zscore_warm_up prices window zscore i Hz); lia. }
    assert (Hsig : generate_signals_safe zscore entry_threshold exit_threshold
                   = Ok (repeat 0 (length prices))).
    { unfold generate_signals_safe.
      rewrite signals_loop_all_missing by exact Hmiss.
      rewrite Hzl. reflexivity. }
    set (flat := make_positions (repeat 0 (length prices))).
    assert (Hfl : length flat = length prices).
    { unfold flat. rewrite make_positions_length. apply repeat_length. }
    destruct (run_backtest_safe_ok prices flat tc_bps benchmark)
      as (res & Hres & Hret & _).
    { rewrite returns_clean_nil. intros E. rewrite E in Hfl. simpl in Hfl.
      apply Hne. apply length_zero_iff_nil. symmetry. exact Hfl. }
    exists zscore, res.
    split; [exact Hz |]. split; [exact Hmiss |]. split; [exact Hsig |].
    split; [| split].
    + unfold pipeline. rewrite Hz, Hsig. exact Hres.
    + rewrite Hret, net_returns_length. lia.
    + rewrite Hret. apply Forall_cells. intros i Hi.
      rewrite net_returns_length in Hi.
      apply net_returns_flat; [apply flat_frame_of_zero_signals | lia].
Qed.

Lemma empty_return_series_only_without_rows_witness :
  exists zscore res,
    calculate_zscore_safe (H := approx_lib) sample_panel 10 = Ok zscore /\
    Forall (fun c => c = None) zscore /\
    generate_signals_safe zscore (3 # 2) (1 # 2) = Ok (repeat 0 (length sample_panel)) /\
    pipeline (H := approx_lib) sample_panel sample_benchmark
      10 (3 # 2) (1 # 2) 10 = Ok res /\
    length (res_returns res) = length sample_panel /\
    Forall (fun c => feq c (Some 0)) (res_returns res).
Proof.
  apply (empty_return_series_only_without_rows (H := approx_lib)
           sample_panel sample_positions 10
           sample_benchmark 10 (3 # 2) (1 # 2)).
  - discriminate.
  - repeat constructor.
  - simpl. lia.
Defined.

(** ** Doubling the transaction cost *)

Lemma tc_cost_doubled (tc_bps : Q) : tc_cost (2 * tc_bps) == 2 * tc_cost tc_bps.
Proof. unfold tc_cost, Qdiv. ring. Qed.

Lemma tc_cost_nonneg (tc_bps : Q) : 0 <= tc_bps -> 0 <= tc_cost tc_bps.
Proof.
  intros Hc. unfold tc_cost, Qdiv.
  apply Qmult_le_0_compat; [exact Hc | discriminate].
Qed.

Lemma tc_cost_pos (tc_bps : Q) : 0 < tc_bps -> 0 < tc_cost tc_bps.
Proof.
  intros Hc. unfold tc_cost. apply Qlt_shift_div_l; [reflexivity | lra].
Qed.

Lemma turnover_cells (positions : list Weights) :
  turnover positions
  = map (fun i => Some (turnover_at positions i)) (seq 0 (length positions)).
Proof.
  unfold turnover, row_sum, turnover_at.
  rewrite !length_map, !diff_length, !length_map, Nat.max_id. reflexivity.
Qed.

Lemma present_map_Some {A : Type} (f : A -> Q) (l : list A) :
  present (map (fun i => Some (f i)) l) = map f l.
Proof.
  induction l as [| a l IH]; simpl; [reflexivity | rewrite IH; reflexivity].
Qed.

Lemma cell_abs_nonneg (s : Series) (i : nat) :
  match cell (map fabs s) i with
  | Some y => 0 <= y
  | None => True
  end.
Proof.
  unfold cell. rewrite nth_error_map.
  destruct (nth_error s i) as [[x |] |]; simpl; trivial.
  apply Qabs_nonneg.
Qed.

Lemma turnover_at_nonneg (positions : list Weights) (i : nat) :
  0 <= turnover_at positions i.
Proof.
  unfold turnover_at, sum_skipna.
  pose proof (cell_abs_nonneg (diff (map weight1 positions)) i) as H1.
  pose proof (cell_abs_nonneg (diff (map weight2 positions)) i) as H2.
  destruct (cell (map fabs (diff (map weight1 positions))) i),
           (cell (map fabs (diff (map weight2 positions))) i); simpl; lra.
Qed.

Lemma cell_turnover_at (positions : list Weights) (i : nat) :
  (i < length positions)%nat ->
  cell (turnover positions) i = Some (turnover_at positions i).
Proof.
  intros Hi. rewrite turnover_cells. unfold cell.
  rewrite nth_error_map, nth_error_seq.
  apply Nat.ltb_lt in Hi. rewrite Hi. reflexivity.
Qed.

Lemma cell_net_returns_at (prices : list PriceRow) (positions : list Weights)
    (tc_bps : Q) (i : nat) :
  (i < length positions)%nat ->
  cell (net_returns prices positions tc_bps) i
  = Some (strategy_at prices positions i - turnover_at positions i * tc_cost tc_bps).
Proof.
  intros Hi.
  rewrite cell_net_returns by lia.
  rewrite cell_transaction_costs by exact Hi.
  rewrite cell_turnover_at by exact Hi.
  unfold strategy_returns.
  rewrite cell_row_sum; [reflexivity |].
  unfold price_returns1, price_returns2.
  rewrite !align_length, !shift1_length, !pct_change_length, !length_map. lia.
Qed.

Lemma Qsum_nonneg_zero (l : list Q) :
  Forall (fun x => 0 <= x) l -> Qsum l == 0 -> Forall (fun x => x == 0) l.
Proof.
  induction l as [| x l IH]; intros Hall Hsum; [constructor |].
  inversion Hall as [| ? ? Hx Hrest]; subst. simpl in Hsum.
  assert (Hl : 0 <= Qsum l).
  { clear - Hrest. induction Hrest as [| y l Hy _ IHl]; simpl; lra. }
  constructor; [lra | apply IH; [exact Hrest | lra]].
Qed.

Lemma Qsum_pos_exists (l : list Q) :
  Forall (fun x => 0 <= x) l -> 0 < Qsum l -> exists x, In x l /\ 0 < x.
Proof.
  induction l as [| x l IH]; intros Hall Hsum; simpl in Hsum; [lra |].
  inversion Hall as [| ? ? Hx Hrest]; subst.
  destruct (Qlt_le_dec 0 x) as [Hpos | Hle].
  - exists x. split; [left; reflexivity | exact Hpos].
  - destruct (IH Hrest) as (y & Hin & Hy); [lra |].
    exists y. split; [right; exact Hin | exact Hy].
Qed.

Lemma total_turnover_zero (positions : list Weights) (i : nat) :
  total_turnover positions == 0 -> turnover_at positions i == 0.
Proof.
  intros Hz.
  destruct (Nat.lt_ge_cases i (length positions)) as [Hi | Hi].
  - unfold total_turnover in Hz. rewrite turnover_cells, present_map_Some in Hz.
    apply Qsum_nonneg_zero in Hz.
    + rewrite Forall_forall in Hz. apply Hz.
      apply in_map_iff. exists i. split; [reflexivity |].
      apply in_seq. lia.
    + apply Forall_map. apply Forall_forall. intros j _. apply turnover_at_nonneg.
  - unfold turnover_at.
    rewrite !cell_beyond by (rewrite length_map, diff_length, length_map; exact Hi).
    reflexivity.
Qed.

Lemma total_turnover_pos (positions : list Weights) :
  0 < total_turnover positions ->
  exists i, (i < length positions)%nat /\ 0 < turnover_at positions i.
Proof.
  intros Hpos. unfold total_turnover in Hpos.
  rewrite turnover_cells, present_map_Some in Hpos.
  apply Qsum_pos_exists in Hpos.
  - destruct Hpos as (x & Hin & Hx).
    apply in_map_iff in Hin. destruct Hin as (i & <- & Hi).
    apply in_seq in Hi. exists i. split; [lia | exact Hx].
  - apply Forall_map. apply Forall_forall. intros j _. apply turnover_at_nonneg.
Qed.

(** The cost of every row and the cumulative cost double with the rate. *)
Lemma cell_transaction_costs_doubled (positions : list Weights) (tc_bps : Q) (i : nat) :
  feq (cell (transaction_costs positions (2 * tc_bps)) i)
      (fmul (Some 2) (cell (transaction_costs positions tc_bps) i)).
Proof.
  destruct (Nat.lt_ge_cases i (length positions)) as [Hi | Hi].
  - rewrite !cell_transaction_costs by exact Hi.
    rewrite cell_turnover_at by exact Hi. simpl.
    rewrite tc_cost_doubled. ring.
  - rewrite !cell_beyond by (rewrite transaction_costs_length; exact Hi).
    exact I.
Qed.

Lemma cumulative_cost_doubled (positions : list Weights) (tc_bps : Q) :
  cumulative_cost positions (2 * tc_bps) == 2 * cumulative_cost positions tc_bps.
Proof.
  unfold cumulative_cost, transaction_costs.
  induction (turnover positions) as [| c rest IH]; simpl; [ring |].
  destruct c as [t |]; simpl; [| exact IH].
  rewrite IH, tc_cost_doubled. ring.
Qed.

(** ** Comparing two equity curves *)

Lemma Forall2_cells (R : float -> float -> Prop) (l : Series) :
  forall l' : Series,
    length l = length l' ->
    (forall i, (i < length l)%nat -> R (cell l i) (cell l' i)) ->
    Forall2 R l l'.
Proof.
  induction l as [| c l IH]; intros [| c' l'] Hlen Hcells; try discriminate.
  - constructor.
  - constructor.
    + apply (Hcells 0%nat). simpl. lia.
    + apply IH; [simpl in Hlen; lia |].
      intros i Hi. apply (Hcells (S i)). simpl. lia.
Qed.

Lemma last_cell_cons (c : float) (l : Series) :
  l <> [] -> last_cell (c :: l) = last_cell l.
Proof. destruct l; [contradiction | reflexivity]. Qed.

Lemma cumprod_from_nil (s : Series) (acc : Q) : cumprod_from acc s = [] -> s = [].
Proof. destruct s as [| [x |] rest]; simpl; [reflexivity | discriminate | discriminate]. Qed.

Lemma factor_le (acc acc' a b : Q) :
  0 < acc' -> acc' <= acc -> 0 < 1 + b -> b <= a ->
  0 < acc' * (1 + b) /\ acc' * (1 + b) <= acc * (1 + a).
Proof.
  intros H1 H2 H3 H4.
  assert (H5 : 0 < 1 + a) by lra.
  split; nra.
Qed.

Lemma factor_lt (acc acc' a b : Q) :
  0 < acc' -> acc' <= acc -> 0 < 1 + b -> b <= a ->
  acc' < acc \/ b < a ->
  acc' * (1 + b) < acc * (1 + a).
Proof.
  intros H1 H2 H3 H4 [H | H]; assert (H5 : 0 < 1 + a) by lra; nra.
Qed.

Lemma cumprod_last_dominated (s s' : Series) :
  Forall2 dominated s s' ->
  forall acc acc' x y : Q,
    0 < acc' -> acc' <= acc ->
    last_cell (cumprod_from acc (map (fadd (Some 1)) s)) = Some x ->
    last_cell (cumprod_from acc' (map (fadd (Some 1)) s')) = Some y ->
    y <= x /\
    (acc' < acc \/
     (exists i a b, nth_error s i = Some (Some a) /\
                    nth_error s' i = Some (Some b) /\ b < a) ->
     y < x).
Proof.
  induction 1 as [| c c' rest rest' (a & b & -> & -> & Hb & Hab) Hrest IH];
    intros acc acc' x y Hacc' Hle Hx Hy.
  - discriminate Hx.
  - simpl in Hx, Hy.
    destruct (factor_le acc acc' a b Hacc' Hle Hb Hab) as [Hpos Hnext].
    destruct rest as [| r rest].
    + inversion Hrest; subst. simpl in Hx, Hy.
      unfold last_cell in Hx, Hy. simpl in Hx, Hy.
      injection Hx as <-. injection Hy as <-.
      split; [exact Hnext |].
      intros [Hlt | (i & a0 & b0 & Ha0 & Hb0 & Hlt)].
      * apply factor_lt; auto.
      * destruct i as [| i]; [| destruct i; discriminate].
        simpl in Ha0, Hb0. injection Ha0 as <-. injection Hb0 as <-.
        apply factor_lt; auto.
    + assert (Hne : forall A (l : Series), l <> [] ->
                      cumprod_from A (map (fadd (Some 1)) l) <> []).
      { intros A l Hl E. apply cumprod_from_nil in E.
        apply map_eq_nil in E. contradiction. }
      inversion Hrest as [| ? r' ? rest'' ? ?]; subst.
      rewrite last_cell_cons in Hx by (apply Hne; discriminate).
      rewrite last_cell_cons in Hy by (apply Hne; discriminate).
      destruct (IH _ _ x y Hpos Hnext Hx Hy) as [Hyx Hstrict].
      split; [exact Hyx |].
      intros [Hlt | (i & a0 & b0 & Ha0 & Hb0 & Hlt)].
      * apply Hstrict. left. apply factor_lt; auto.
      * destruct i as [| i].
        -- simpl in Ha0, Hb0. injection Ha0 as <-. injection Hb0 as <-.
           apply Hstrict. left. apply factor_lt; auto.
        -- apply Hstrict. right. exists i, a0, b0. auto.
Qed.

Lemma cumprod_last_same (s s' : Series) :
  Forall2 same_value s s' ->
  forall acc acc' x y : Q,
    acc' == acc ->
    last_cell (cumprod_from acc (map (fadd (Some 1)) s)) = Some x ->
    last_cell (cumprod_from acc' (map (fadd (Some 1)) s')) = Some y ->
    y == x.
Proof.
  induction 1 as [| c c' rest rest' (a & b & -> & -> & Hab) Hrest IH];
    intros acc acc' x y Hacc Hx Hy.
  - discriminate Hx.
  - simpl in Hx, Hy.
    assert (Hnext : acc' * (1 + b) == acc * (1 + a)) by (rewrite Hacc, Hab; reflexivity).
    destruct rest as [| r rest].
    + inversion Hrest; subst. unfold last_cell in Hx, Hy. simpl in Hx, Hy.
      injection Hx as <-. injection Hy as <-. exact Hnext.
    + assert (Hne : forall A (l : Series), l <> [] ->
                      cumprod_from A (map (fadd (Some 1)) l) <> []).
      { intros A l Hl E. apply cumprod_from_nil in E.
        apply map_eq_nil in E. contradiction. }
      inversion Hrest as [| ? r' ? rest'' ? ?]; subst.
      rewrite last_cell_cons in Hx by (apply Hne; discriminate).
      rewrite last_cell_cons in Hy by (apply Hne; discriminate).
      exact (IH _ _ x y Hnext Hx Hy).
Qed.

Lemma terminal_equity_present (prices : list PriceRow) (positions : list Weights)
    (tc_bps : Q) :
  prices <> [] -> length positions = length prices ->
  exists e, terminal_equity prices positions tc_bps = Some e.
Proof.
  intros Hne Hlen.
  assert (Hn : (0 < length prices)%nat).
  { destruct prices; [contradiction | simpl; lia]. }
  destruct (cell_equity_curve_present prices positions tc_bps (length prices - 1))
    as [e He]; [lia |].
  exists e. unfold terminal_equity, last_cell.
  pose proof (equity_curve_length prices positions tc_bps) as Hel.
  destruct (equity_curve prices positions tc_bps) as [| c rest] eqn:E using rev_ind.
  - simpl in Hel. lia.
  - rewrite last_last.
    rewrite length_app in Hel. simpl in Hel.
    rewrite nth_error_app2 in He by lia.
    replace (length prices - 1 - length rest)%nat with 0%nat in He by lia.
    simpl in He. injection He as ->. reflexivity.
Qed.

(** C6 (as stated, refuted): with a cost of 10 bps, a total turnover of 1 and
    an unchanged position path, doubling the cost raises the terminal value
    of the equity curve from -0.4995 to -0.499: it neither decreases nor stays
    the same. *)
Lemma doubled_cost_can_raise_equity :
  total_turnover shock_positions == 1 /\
  feq (terminal_equity shock_panel shock_positions 10) (Some (- (4995 # 10000))) /\
  feq (terminal_equity shock_panel shock_positions (2 * 10)) (Some (- (499 # 1000))) /\
  ~ (exists e e',
        terminal_equity shock_panel shock_positions 10 = Some e /\
        terminal_equity shock_panel shock_positions (2 * 10) = Some e' /\
        e' <= e).
Proof.
  split; [vm_compute; reflexivity |].
  split; [vm_compute; reflexivity |].
  split; [vm_compute; reflexivity |].
  intros (e & e' & He & He' & Hle).
  vm_compute in He, He'. injection He as <-. injection He' as <-.
  apply Hle. reflexivity.
Qed.

(** C6 (amended): with the panel and the position path fixed, doubling
    [transaction_cost_bps] doubles the transaction cost of every row and the
    cumulative transaction cost.  On a non-empty panel of positive prices with
    an index-aligned position frame and a non-negative cost, the terminal value
    of the equity curve is unchanged when the total turnover is 0; when every
    growth factor [1 + net return] under the doubled cost is positive it does
    not increase, and it strictly decreases when moreover the cost is positive
    and the total turnover is positive. *)
Theorem doubling_cost_monotone (prices : list PriceRow) (positions : list Weights)
    (tc_bps : Q) :
  (forall i, feq (cell (transaction_costs positions (2 * tc_bps)) i)
                 (fmul (Some 2) (cell (transaction_costs positions tc_bps) i))) /\
  cumulative_cost positions (2 * tc_bps) == 2 * cumulative_cost positions tc_bps /\
  (prices <> [] -> positive_panel prices -> length positions = length prices ->
   0 <= tc_bps ->
   exists e e',
     terminal_equity prices positions tc_bps = Some e /\
     terminal_equity prices positions (2 * tc_bps) = Some e' /\
     (total_turnover positions == 0 -> e' == e) /\
     ((forall i x, nth_error (net_returns prices positions (2 * tc_bps)) i = Some (Some x) ->
                   0 < 1 + x) ->
      e' <= e /\
      (0 < tc_bps -> 0 < total_turnover positions -> e' < e))).
Proof.
  split; [apply cell_transaction_costs_doubled |].
  split; [apply cumulative_cost_doubled |].
  intros Hne _ Hlen Hcost.
  destruct (terminal_equity_present prices positions tc_bps Hne Hlen) as [e He].
  destruct (terminal_equity_present prices positions (2 * tc_bps) Hne Hlen) as [e' He'].
  exists e, e'. split; [exact He |]. split; [exact He' |].
  assert (Hlens : length (net_returns prices positions tc_bps)
                  = length (net_returns prices positions (2 * tc_bps))).
  { rewrite !net_returns_length. reflexivity. }
  pose proof (tc_cost_nonneg tc_bps Hcost) as Hc.
  unfold terminal_equity, equity_curve, cumprod in He, He'.
  split.
  - intros Hzero.
    apply (cumprod_last_same (net_returns prices positions tc_bps)
             (net_returns prices positions (2 * tc_bps)) ) with (acc := 1) (acc' := 1);
      [| reflexivity | exact He | exact He'].
    apply Forall2_cells; [exact Hlens |].
    intros i Hi. rewrite net_returns_length in Hi.
    rewrite !cell_net_returns_at by lia.
    eexists. eexists. split; [reflexivity |]. split; [reflexivity |].
    rewrite (total_turnover_zero positions i Hzero). ring.
  - intros Hfactors.
    assert (Hdom : Forall2 dominated (net_returns prices positions tc_bps)
                     (net_returns prices positions (2 * tc_bps))).
    { apply Forall2_cells; [exact Hlens |].
      intros i Hi. rewrite net_returns_length in Hi.
      rewrite !cell_net_returns_at by lia.
      eexists. eexists. split; [reflexivity |]. split; [reflexivity |].
      split.
      - apply (Hfactors i). rewrite nth_cell by (rewrite net_returns_length; lia).
        rewrite cell_net_returns_at by lia. reflexivity.
      - rewrite tc_cost_doubled.
        pose proof (turnover_at_nonneg positions i) as Ht.
        assert (Hp : 0 <= turnover_at positions i * tc_cost tc_bps)
          by (apply Qmult_le_0_compat; assumption).
        lra. }
    destruct (cumprod_last_dominated _ _ Hdom 1 1 e e') as [Hle Hstrict];
      [reflexivity | apply Qle_refl | exact He | exact He' |].
    split; [exact Hle |].
    intros Hpos Hturn. apply Hstrict. right.
    destruct (total_turnover_pos positions Hturn) as (i & Hi & Hti).
    exists i. eexists. eexists.
    split; [| split].
    + rewrite nth_cell by (rewrite net_returns_length; lia).
      rewrite cell_net_returns_at by exact Hi. reflexivity.
    + rewrite nth_cell by (rewrite net_returns_length; lia).
      rewrite cell_net_returns_at by exact Hi. reflexivity.
    + rewrite tc_cost_doubled.
      pose proof (tc_cost_pos tc_bps Hpos) as Hcp.
      assert (Hp : 0 < turnover_at positions i * tc_cost tc_bps)
        by (apply Qmult_lt_0_compat; assumption).
      lra.
Qed.

Lemma doubling_cost_monotone_witness :
  exists e e',
    terminal_equity sample_panel sample_positions 10 = Some e /\
    terminal_equity sample_panel sample_positions (2 * 10) = Some e' /\
    e' < e.
Proof.
  destruct (doubling_cost_monotone sample_panel sample_positions 10)
    as (_ & _ & Hterminal).
  destruct Hterminal as (e & e' & He & He' & _ & Hfactors).
  - discriminate.
  - repeat constructor.
  - reflexivity.
  - discriminate.
  - exists e, e'. split; [exact He |]. split; [exact He' |].
    apply Hfactors.
    + intros i x Hi. vm_compute in Hi.
      do 6 (destruct i as [| i]; [injection Hi as <-; reflexivity |]).
      destruct i; discriminate Hi.
    + reflexivity.
    + vm_compute. reflexivity.
Defined.

(** ** Beta and correlation against the benchmark *)

Lemma lookup_in (s : list (nat * Q)) (d : nat) :
  In d (labels s) -> exists x, lookup d s = Some x.
Proof.
  induction s as [| [d' x] rest IH]; intros Hin; [contradiction |].
  simpl. destruct (d =? d')%nat eqn:E.
  - exists x. reflexivity.
  - apply IH. destruct Hin as [Hd | Hin]; [| exact Hin].
    simpl in Hd. subst d'. rewrite Nat.eqb_refl in E. discriminate.
Qed.

Lemma loc_total (s : list (nat * Q)) (dates : list nat) :
  Forall (fun d => In d (labels s)) dates ->
  exists xs, loc s dates = Some xs.
Proof.
  induction 1 as [| d rest Hd _ IH]; simpl.
  - exists []. reflexivity.
  - destruct (lookup_in s d Hd) as [x ->].
    destruct IH as [xs ->]. exists (x :: xs). reflexivity.
Qed.

Lemma index_intersection_left (a b : list (nat * Q)) :
  Forall (fun d => In d (labels a)) (index_intersection a b).
Proof.
  apply Forall_forall. intros d Hd.
  unfold index_intersection in Hd. apply filter_In in Hd. tauto.
Qed.

Lemma index_intersection_right (a b : list (nat * Q)) :
  Forall (fun d => In d (labels b)) (index_intersection a b).
Proof.
  apply Forall_forall. intros d Hd.
  unfold index_intersection in Hd. apply filter_In in Hd.
  destruct Hd as [_ Hex]. apply existsb_exists in Hex.
  destruct Hex as (d' & Hin & Heq). apply Nat.eqb_eq in Heq. subst d'. exact Hin.
Qed.

(** C4 (as stated, refuted): with exactly 20 dates common to the strategy
    and the benchmark returns, the covariance over the benchmark variance is
    1/2, and the beta and the correlation of [run_backtest_safe] are both
    0. *)
Lemma twenty_common_dates_keep_default :
  exists bench returns_aligned benchmark_aligned,
    benchmark_returns (InPanel see_saw_column) = Some bench /\
    length (common_dates see_saw_panel held_positions 10 bench) = 20%nat /\
    loc (returns_clean see_saw_panel held_positions 10)
        (common_dates see_saw_panel held_positions 10 bench) = Some returns_aligned /\
    loc bench (common_dates see_saw_panel held_positions 10 bench)
    = Some benchmark_aligned /\
    feq (fdiv (cov returns_aligned benchmark_aligned) (var benchmark_aligned))
        (Some (1 # 2)) /\
    market_beta (H := approx_lib) see_saw_panel held_positions 10 (InPanel see_saw_column)
    = (Some 0, Some 0) /\
    ~ feq (fst (market_beta (H := approx_lib) see_saw_panel held_positions 10
                  (InPanel see_saw_column)))
          (fdiv (cov returns_aligned benchmark_aligned) (var benchmark_aligned)).
Proof.
  eexists. eexists. eexists.
  split; [reflexivity |].
  split; [vm_compute; reflexivity |].
  split; [vm_compute; reflexivity |].
  split; [vm_compute; reflexivity |].
  split; [vm_compute; reflexivity |].
  split; [vm_compute; reflexivity |].
  vm_compute. discriminate.
Qed.

(** C4 (amended): in [run_backtest_safe], when the benchmark returns are
    unavailable or the strategy and benchmark return series share at most 20
    dates, beta and correlation are both 0; when they share more than 20
    dates, beta is the covariance of the aligned returns over the benchmark
    variance when that variance is positive and 0 otherwise, and correlation
    is the Pearson correlation of the aligned returns.  In every case the
    backtest returns its result, with these two values rounded to three
    decimals, whenever a net return is left. *)
Theorem beta_needs_more_than_twenty_dates `{FloatLib} (prices : list PriceRow)
    (positions : list Weights) (tc_bps : Q) (benchmark : Benchmark) :
  match benchmark_returns benchmark with
  | None => market_beta prices positions tc_bps benchmark = (Some 0, Some 0)
  | Some bench =>
      let common := common_dates prices positions tc_bps bench in
      ((length common <= 20)%nat ->
       market_beta prices positions tc_bps benchmark = (Some 0, Some 0)) /\
      ((20 < length common)%nat ->
       exists returns_aligned benchmark_aligned,
         loc (returns_clean prices positions tc_bps) common = Some returns_aligned /\
         loc bench common = Some benchmark_aligned /\
         market_beta prices positions tc_bps benchmark
         = (if fpos (var benchmark_aligned)
            then fdiv (cov returns_aligned benchmark_aligned) (var benchmark_aligned)
            else Some 0,
            corr returns_aligned benchmark_aligned))
  end /\
  (returns_clean prices positions tc_bps <> [] ->
   exists res,
     run_backtest_safe prices positions tc_bps benchmark = Ok res /\
     metric "Beta vs Market" (res_metrics res)
     = round_nd (fst (market_beta prices positions tc_bps benchmark)) 3 /\
     metric "Correlation vs Market" (res_metrics res)
     = round_nd (snd (market_beta prices positions tc_bps benchmark)) 3).
Proof.
  split.
  - unfold market_beta.
    destruct (benchmark_returns benchmark) as [bench |]; [| reflexivity].
    cbv zeta. split.
    + intros Hfew.
      replace (20 <? length (common_dates prices positions tc_bps bench))%nat with false;
        [reflexivity |].
      symmetry. apply Nat.ltb_ge. exact Hfew.
    + intros Hmany.
      apply Nat.ltb_lt in Hmany. rewrite Hmany.
      destruct (loc_total (returns_clean prices positions tc_bps)
                  (common_dates prices positions tc_bps bench)) as [ra Hra];
        [apply index_intersection_left |].
      destruct (loc_total bench (common_dates prices positions tc_bps bench))
        as [ba Hba]; [apply index_intersection_right |].
      exists ra, ba. rewrite Hra, Hba. repeat split; reflexivity.
  - intros Hne.
    destruct (run_backtest_safe_ok prices positions tc_bps benchmark Hne)
      as (res & Hres & _ & _ & _ & _ & _ & _ & Hbeta & Hcorr & _).
    exists res. repeat split; assumption.
Qed.

Lemma beta_needs_more_than_twenty_dates_witness :
  market_beta (H := approx_lib) see_saw_panel held_positions 10 (InPanel see_saw_column)
  = (Some 0, Some 0) /\
  exists returns_aligned benchmark_aligned,
    market_beta (H := approx_lib) (see_saw_panel ++ [mkRow 2 1])
      (held_positions ++ [mkWeights (1 # 2) (- (1 # 2))]) 10
      (InPanel (see_saw_column ++ [2]))
    = (if fpos (var benchmark_aligned)
       then fdiv (cov returns_aligned benchmark_aligned) (var benchmark_aligned)
       else Some 0,
       corr (H := approx_lib) returns_aligned benchmark_aligned).
Proof.
  split.
  - destruct (beta_needs_more_than_twenty_dates (H := approx_lib)
                see_saw_panel held_positions 10 (InPanel see_saw_column))
      as [Hbeta _].
    cbn [benchmark_returns] in Hbeta. destruct Hbeta as [Hfew _].
    apply Hfew. apply Nat.leb_le. vm_compute. reflexivity.
  - destruct (beta_needs_more_than_twenty_dates (H := approx_lib)
                (see_saw_panel ++ [mkRow 2 1])
                (held_positions ++ [mkWeights (1 # 2) (- (1 # 2))]) 10
                (InPanel (see_saw_column ++ [2])))
      as [Hbeta _].
    cbn [benchmark_returns] in Hbeta. destruct Hbeta as [_ Hmany].
    destruct Hmany as (ra & ba & _ & _ & Hval).
    + apply Nat.ltb_lt. vm_compute. reflexivity.
    + exists ra, ba. exact Hval.
Defined.

(** * Further properties of the signal loop *)

Lemma signals_loop_length (entry exit : Q) (zscore : Series) :
  forall position : Z,
    length (signals_loop entry exit position zscore) = length zscore.
Proof.
  induction zscore as [| [z |] rest IH]; intros position; simpl;
    [reflexivity | rewrite IH; reflexivity | rewrite IH; reflexivity].
Qed.

(** X1: [generate_signals_safe] never fails; it returns one signal per
    z-score and every signal is 0, 1 or -1. *)
Theorem signals_shape (zscore : Series) (entry_threshold exit_threshold : Q) :
  exists signals,
    generate_signals_safe zscore entry_threshold exit_threshold = Ok signals /\
    length signals = length zscore /\
    Forall (fun s => s = 0 \/ s = inject_Z 1 \/ s = inject_Z (-1)) signals.
Proof.
  eexists. split; [reflexivity |]. split.
  - apply signals_loop_length.
  - apply signals_loop_values. left. reflexivity.
Qed.

(** The value of [position] when the loop has run over a series. *)
Lemma signals_loop_app (entry exit : Q) (zscore more : Series) :
  forall position : Z,
    exists position' : Z,
      signals_loop entry exit position (zscore ++ more)
      = signals_loop entry exit position zscore
        ++ signals_loop entry exit position' more.
Proof.
  induction zscore as [| [z |] rest IH]; intros position; simpl.
  - exists position. reflexivity.
  - destruct (IH (step_position entry exit position z)) as [p' Hp'].
    exists p'. rewrite Hp'. reflexivity.
  - destruct (IH position) as [p' Hp']. exists p'. rewrite Hp'. reflexivity.
Qed.

(** X2: the signals are causal: z-scores appended after a series leave
    the signals of that series unchanged. *)
Theorem signals_causal (zscore more : Series) (entry_threshold exit_threshold : Q) :
  exists signals signals',
    generate_signals_safe zscore entry_threshold exit_threshold = Ok signals /\
    generate_signals_safe (zscore ++ more) entry_threshold exit_threshold = Ok signals' /\
    firstn (length zscore) signals' = signals.
Proof.
  eexists. eexists. split; [reflexivity |]. split; [reflexivity |].
  destruct (signals_loop_app entry_threshold exit_threshold zscore more 0%Z)
    as [p' Hp'].
  rewrite Hp'.
  rewrite <- (signals_loop_length entry_threshold exit_threshold zscore 0%Z).
  rewrite firstn_app, Nat.sub_diag, firstn_all, firstn_O, app_nil_r. reflexivity.
Qed.

Lemma step_position_inside (entry exit : Q) (z : Q) :
  - entry <= z -> z <= entry -> step_position entry exit 0 z = 0%Z.
Proof.
  intros Hlo Hhi. unfold step_position, Qgtb. simpl.
  apply Qltb_ge in Hhi. rewrite Hhi.
  apply Qltb_ge in Hlo. rewrite Hlo. reflexivity.
Qed.

(** X3: when no present z-score lies outside [-entry, entry], no
    position is ever opened: every signal is 0. *)
Theorem no_breach_no_position (zscore : Series) (entry_threshold exit_threshold : Q) :
  Forall (fun c => match c with
                   | Some z => - entry_threshold <= z /\ z <= entry_threshold
                   | None => True
                   end) zscore ->
  generate_signals_safe zscore entry_threshold exit_threshold
  = Ok (repeat 0 (length zscore)).
Proof.
  intros Hall. unfold generate_signals_safe. f_equal.
  induction Hall as [| c rest Hc _ IH]; [reflexivity |].
  destruct c as [z |]; simpl.
  - destruct Hc as [Hlo Hhi].
    rewrite step_position_inside by assumption.
    rewrite IH. reflexivity.
  - rewrite IH. reflexivity.
Qed.

Lemma no_breach_no_position_witness :
  generate_signals_safe [None; Some (3 # 2); Some (- (3 # 2)); Some 1] (3 # 2) (1 # 2)
  = Ok (repeat 0 4).
Proof.
  apply (no_breach_no_position [None; Some (3 # 2); Some (- (3 # 2)); Some 1]
           (3 # 2) (1 # 2)).
  repeat constructor; discriminate.
Defined.

Lemma Qltb_compat (x x' y y' : Q) : x == x' -> y == y' -> Qltb x y = Qltb x' y'.
Proof.
  intros Hx Hy.
  destruct (Qltb x' y') eqn:E.
  - apply Qltb_lt. apply Qltb_lt in E. rewrite Hx, Hy. exact E.
  - apply Qltb_ge. apply Qltb_ge in E. rewrite Hx, Hy. exact E.
Qed.

Lemma step_position_opp (entry exit : Q) (position : Z) (z : Q) :
  0 <= entry ->
  step_position entry exit (- position) (- z)
  = (- step_position entry exit position z)%Z.
Proof.
  intros Hentry. unfold step_position, Qgtb.
  replace (- position =? 0)%Z with (position =? 0)%Z
    by (destruct (Z.eqb_spec position 0), (Z.eqb_spec (- position) 0); lia).
  destruct (Z.eqb_spec position 0) as [-> | Hp].
  - destruct (Qlt_le_dec entry z) as [Hgt | Hle].
    + assert (H1 : Qltb entry z = true) by (apply Qltb_lt; exact Hgt).
      assert (H2 : Qltb entry (- z) = false) by (apply Qltb_ge; lra).
      assert (H3 : Qltb (- z) (- entry) = true) by (apply Qltb_lt; lra).
      rewrite H1, H2, H3. reflexivity.
    + assert (H1 : Qltb entry z = false) by (apply Qltb_ge; exact Hle).
      rewrite H1.
      destruct (Qlt_le_dec z (- entry)) as [Hlt | Hge].
      * assert (H2 : Qltb z (- entry) = true) by (apply Qltb_lt; exact Hlt).
        assert (H3 : Qltb entry (- z) = true) by (apply Qltb_lt; lra).
        rewrite H2, H3. reflexivity.
      * assert (H2 : Qltb z (- entry) = false) by (apply Qltb_ge; exact Hge).
        assert (H3 : Qltb entry (- z) = false) by (apply Qltb_ge; lra).
        assert (H4 : Qltb (- z) (- entry) = false) by (apply Qltb_ge; lra).
        rewrite H2, H3, H4. reflexivity.
  - rewrite (Qltb_compat (Qabs (- z)) (Qabs z) exit exit (Qabs_opp z) (Qeq_refl exit)).
    destruct (Qltb (Qabs z) exit); reflexivity.
Qed.

Lemma signals_loop_opp (entry exit : Q) (zscore : Series) :
  0 <= entry ->
  forall position : Z,
    signals_loop entry exit (- position) (negate_series zscore)
    = map Qopp (signals_loop entry exit position zscore).
Proof.
  intros Hentry.
  induction zscore as [| [z |] rest IH]; intros position; simpl.
  - reflexivity.
  - rewrite step_position_opp by exact Hentry.
    rewrite IH. reflexivity.
  - rewrite IH. reflexivity.
Qed.

(** X4: with a non-negative entry threshold the loop treats both sides
    alike: negating every z-score negates every signal. *)
Theorem signals_mirror (zscore : Series) (entry_threshold exit_threshold : Q) :
  0 <= entry_threshold ->
  exists signals,
    generate_signals_safe zscore entry_threshold exit_threshold = Ok signals /\
    generate_signals_safe (negate_series zscore) entry_threshold exit_threshold
    = Ok (map Qopp signals).
Proof.
  intros Hentry. eexists. split; [reflexivity |].
  unfold generate_signals_safe. f_equal.
  exact (signals_loop_opp entry_threshold exit_threshold zscore Hentry 0%Z).
Qed.

Lemma signals_mirror_witness :
  exists signals,
    generate_signals_safe [Some 0; Some 2; Some 1; Some (3 # 10); Some (- 2)]
      (3 # 2) (1 # 2) = Ok signals /\
    generate_signals_safe
      (negate_series [Some 0; Some 2; Some 1; Some (3 # 10); Some (- 2)])
      (3 # 2) (1 # 2) = Ok (map Qopp signals).
Proof.
  apply (signals_mirror [Some 0; Some 2; Some 1; Some (3 # 10); Some (- 2)]
           (3 # 2) (1 # 2)).
  discriminate.
Defined.

(** * Further properties of the z-score *)

Lemma price_ratio_cell (r : PriceRow) :
  ~ price2 r == 0 ->
  fdiv (Some (price1 r)) (Some (price2 r)) = Some (price1 r / price2 r).
Proof.
  intros Hnz. simpl. apply Qeqb_neq in Hnz. rewrite Hnz. reflexivity.
Qed.






Lemma window_at_app (s more : Series) (w i : nat) :
  (i < length s)%nat -> window_at (s ++ more) w i = window_at s w i.
Proof.
  intros Hi. unfold window_at.
  destruct (w <=? S i)%nat eqn:E; [| reflexivity].
  apply Nat.leb_le in E. f_equal.
  rewrite skipn_app.
  replace (S i - w - length s)%nat with 0%nat by lia.
  change (skipn 0 more) with more.
  rewrite firstn_app.
  replace (w - length (skipn (S i - w) s))%nat with 0%nat
    by (rewrite length_skipn; lia).
  rewrite firstn_O. apply app_nil_r.
Qed.

Lemma rolling_app (agg : list Q -> float) (w : nat) (s more : Series) (i : nat) :
  (i < length s)%nat ->
  cell (rolling agg w (s ++ more)) i = cell (rolling agg w s) i.
Proof.
  intros Hi. unfold cell, rolling.
  rewrite !nth_error_map, !nth_error_seq, length_app.
  replace (i <? length s + length more)%nat with true
    by (symmetry; apply Nat.ltb_lt; lia).
  replace (i <? length s)%nat with true by (symmetry; apply Nat.ltb_lt; lia).
  simpl. rewrite window_at_app by exact Hi. reflexivity.
Qed.

Lemma zscore_prefix `{FloatLib} (prices more : list PriceRow) (window : nat)
    (zscore zscore' : Series) :
  calculate_zscore_safe prices window = Ok zscore ->
  calculate_zscore_safe (prices ++ more) window = Ok zscore' ->
  firstn (length prices) zscore' = zscore.
Proof.
  intros Hz Hz'.
  pose proof (zscore_length _ _ _ Hz) as Hl.
  pose proof (zscore_length _ _ _ Hz') as Hl'.
  rewrite length_app in Hl'.
  unfold calculate_zscore_safe in Hz, Hz'.
  destruct (existsb is_zero (price_ratio prices) || forallb isnull (price_ratio prices));
    [discriminate |].
  destruct (existsb is_zero (price_ratio (prices ++ more))
            || forallb isnull (price_ratio (prices ++ more))); [discriminate |].
  injection Hz as Hz. injection Hz' as Hz'.
  assert (Hr : price_ratio (prices ++ more) = price_ratio prices ++ price_ratio more).
  { unfold price_ratio. apply map_app. }
  assert (Hrl : length (price_ratio prices) = length prices).
  { unfold price_ratio. apply length_map. }
  apply nth_error_ext. intros i.
  rewrite nth_error_firstn.
  destruct (i <? length prices)%nat eqn:Ei.
  - apply Nat.ltb_lt in Ei.
    rewrite <- Hz, <- Hz'.
    rewrite !zip3_cell;
      rewrite ?length_map, ?rolling_length, ?Hr, ?length_app, ?Hrl; try lia.
    assert (Hc : forall (f : float -> float) (a b : Series),
               (i < length a)%nat -> (i < length b)%nat ->
               cell a i = cell b i -> cell (map f a) i = cell (map f b) i).
    { intros f a b Ha Hb Hc.
      rewrite (cell_map f a i (cell a i)) by (apply nth_cell; exact Ha).
      rewrite (cell_map f b i (cell b i)) by (apply nth_cell; exact Hb).
      rewrite Hc. reflexivity. }
    rewrite !rolling_app by lia.
    assert (Hcr : cell (price_ratio prices ++ price_ratio more) i
                  = cell (price_ratio prices) i).
    { unfold cell. rewrite nth_error_app1 by lia. reflexivity. }
    rewrite Hcr. f_equal. f_equal.
    apply Hc; rewrite ?rolling_length, ?length_app; try lia.
    apply rolling_app. lia.
  - apply Nat.ltb_ge in Ei. symmetry. apply nth_error_None. lia.
Qed.

(** X6: the decision at a row does not look ahead: when the z-score
    computation succeeds on a panel and on the panel extended by later rows,
    the z-scores and the signals of the earlier rows are the same in both. *)
Theorem decisions_causal `{FloatLib} (prices more : list PriceRow) (window : nat)
    (entry_threshold exit_threshold : Q) (zscore zscore' : Series) :
  calculate_zscore_safe prices window = Ok zscore ->
  calculate_zscore_safe (prices ++ more) window = Ok zscore' ->
  firstn (length prices) zscore' = zscore /\
  exists signals signals',
    generate_signals_safe zscore entry_threshold exit_threshold = Ok signals /\
    generate_signals_safe zscore' entry_threshold exit_threshold = Ok signals' /\
    firstn (length prices) signals' = signals.
Proof.
  intros Hz Hz'.
  pose proof (zscore_prefix prices more window zscore zscore' Hz Hz') as Hpre.
  split; [exact Hpre |].
  pose proof (zscore_length _ _ _ Hz) as Hl.
  eexists. eexists. split; [reflexivity |]. split; [reflexivity |].
  rewrite <- (firstn_skipn (length prices) zscore') at 1.
  rewrite Hpre.
  destruct (signals_loop_app entry_threshold exit_threshold zscore
              (skipn (length prices) zscore') 0%Z) as [p' Hp'].
  rewrite Hp', <- Hl.
  rewrite <- (signals_loop_length entry_threshold exit_threshold zscore 0%Z) at 1.
  rewrite firstn_app, Nat.sub_diag, firstn_all, firstn_O, app_nil_r. reflexivity.
Qed.

Lemma decisions_causal_witness :
  exists zscore zscore',
    calculate_zscore_safe (H := approx_lib) sample_panel 3 = Ok zscore /\
    calculate_zscore_safe (H := approx_lib) (sample_panel ++ [mkRow 30 10]) 3
    = Ok zscore' /\
    firstn (length sample_panel) zscore' = zscore.
Proof.
  eexists. eexists. split; [vm_compute; reflexivity |].
  split; [vm_compute; reflexivity |].
  apply (decisions_causal (H := approx_lib) sample_panel [mkRow 30 10] 3
           (3 # 2) (1 # 2)).
  - vm_compute. reflexivity.
  - vm_compute. reflexivity.
Defined.

(** ** A window without dispersion *)

Lemma Qlen_cons (x : Q) (l : list Q) : Qlen (x :: l) == Qlen l + 1.
Proof.
  unfold Qlen. cbn [length].
  rewrite Nat2Z.inj_succ, <- Z.add_1_r, inject_Z_plus. reflexivity.
Qed.

Lemma Qlen_pos (l : list Q) : l <> [] -> 0 < Qlen l.
Proof.
  intros Hne. destruct l as [| x l]; [contradiction |].
  unfold Qlen, Qlt. simpl. lia.
Qed.

Lemma Qsum_const (xs : list Q) (c : Q) :
  Forall (fun x => x == c) xs -> Qsum xs == c * Qlen xs.
Proof.
  induction 1 as [| x xs Hx _ IH]; simpl.
  - unfold Qlen. simpl. ring.
  - rewrite Qlen_cons, IH, Hx. ring.
Qed.

Lemma Qsum_zero (xs : list Q) : Forall (fun x => x == 0) xs -> Qsum xs == 0.
Proof.
  intros Hall. rewrite (Qsum_const xs 0 Hall). ring.
Qed.

Lemma mean_const (xs : list Q) (c : Q) :
  xs <> [] -> Forall (fun x => x == c) xs ->
  exists m, mean xs = Some m /\ m == c.
Proof.
  intros Hne Hall.
  pose proof (Qlen_pos xs Hne) as Hpos.
  destruct xs as [| x xs]; [contradiction |].
  eexists. split; [reflexivity |].
  rewrite (Qsum_const _ c Hall).
  field. intros E. rewrite E in Hpos. discriminate.
Qed.

Lemma sum_dev_const (xs : list Q) (c : Q) :
  xs <> [] -> Forall (fun x => x == c) xs ->
  exists s, sum_dev xs xs = Some s /\ s == 0.
Proof.
  intros Hne Hall.
  destruct (mean_const xs c Hne Hall) as (m & Hm & Hmc).
  unfold sum_dev. rewrite Hm.
  eexists. split; [reflexivity |].
  apply Qsum_zero. apply Forall_map. apply Forall_forall.
  intros [a b] Hin.
  apply in_combine_l in Hin.
  rewrite Forall_forall in Hall. specialize (Hall a Hin).
  simpl. rewrite Hall, Hmc. ring.
Qed.

Lemma var_const (xs : list Q) (c : Q) :
  Forall (fun x => x == c) xs -> zero_cell (var xs).
Proof.
  intros Hall. unfold var, cov.
  destruct (length xs <? 2)%nat eqn:E; [exact I |].
  apply Nat.ltb_ge in E.
  assert (Hne : xs <> []) by (intros ->; simpl in E; lia).
  destruct (sum_dev_const xs c Hne Hall) as (s & Hs & Hs0).
  rewrite Hs. simpl.
  destruct (Qeqb (Qlen xs - 1) 0); [exact I |].
  simpl. rewrite Hs0. unfold Qdiv. ring.
Qed.

Lemma std_const `{FloatLib} (xs : list Q) (c : Q) :
  sqrt_of_zero -> Forall (fun x => x == c) xs -> zero_cell (std xs).
Proof.
  intros Hsqrt Hall. unfold std.
  pose proof (var_const xs c Hall) as Hv.
  destruct (var xs) as [v |]; [| exact I].
  apply Hsqrt. exact Hv.
Qed.

Lemma replace_zero_cell (c : float) : zero_cell c -> replace_zero c = None.
Proof.
  destruct c as [x |]; simpl; [| reflexivity].
  intros E. unfold replace_zero. simpl.
  apply Qeqb_eq in E. rewrite E. reflexivity.
Qed.

Lemma all_present_ratio (rows : list PriceRow) (c : Q) :
  Forall (fun r => price1 r / price2 r == c) rows ->
  forall xs, all_present (price_ratio rows) = Some xs ->
             Forall (fun x => x == c) xs.
Proof.
  induction 1 as [| r rows Hr _ IH]; intros xs Hxs; simpl in Hxs.
  - injection Hxs as <-. constructor.
  - destruct (Qeqb (price2 r) 0); [discriminate |].
    destruct (all_present (price_ratio rows)) as [ys |] eqn:E; [| discriminate].
    injection Hxs as <-. constructor; [exact Hr | apply IH; reflexivity].
Qed.

Lemma approx_sqrt_of_zero : sqrt_of_zero (H := approx_lib).
Proof.
  intros v Hv. change (zero_cell (approx_sqrt v)). unfold approx_sqrt.
  assert (Hlt : Qltb v 0 = false) by (apply Qltb_ge; rewrite Hv; apply Qle_refl).
  rewrite Hlt.
  assert (Hf : Qfloor (v * 1000000000000) = 0%Z).
  { rewrite (Qfloor_comp (v * 1000000000000) 0) by (rewrite Hv; ring). reflexivity. }
  rewrite Hf. vm_compute. reflexivity.
Qed.

(** X7: the division-by-zero guard: when the ratio is the same on every
    row of the window that ends at row [t] (and the square root of 0 is 0),
    the z-score at [t] is missing, never a fault. *)
Theorem flat_window_gives_no_zscore `{FloatLib} (prices : list PriceRow) (window : nat)
    (zscore : Series) (t : nat) (c : Q) :
  sqrt_of_zero ->
  calculate_zscore_safe prices window = Ok zscore ->
  (t < length prices)%nat ->
  Forall (fun r => price1 r / price2 r == c)
         (firstn window (skipn (S t - window) prices)) ->
  nth_error zscore t = Some None.
Proof.
  intros Hsqrt Hz Ht Hflat.
  unfold calculate_zscore_safe in Hz.
  destruct (existsb is_zero (price_ratio prices) || forallb isnull (price_ratio prices));
    [discriminate |].
  injection Hz as <-.
  assert (Hrl : length (price_ratio prices) = length prices).
  { unfold price_ratio. apply length_map. }
  rewrite zip3_cell by (rewrite ?length_map, ?rolling_length; lia).
  assert (Hstd : cell (map replace_zero (rolling std window (price_ratio prices))) t
                 = None).
  { rewrite (cell_map replace_zero _ t (cell (rolling std window (price_ratio prices)) t))
      by (apply nth_cell; rewrite rolling_length; lia).
    apply replace_zero_cell.
    unfold cell at 1, rolling.
    rewrite nth_error_map, nth_error_seq.
    replace (t <? length (price_ratio prices))%nat with true
      by (symmetry; apply Nat.ltb_lt; lia).
    simpl. unfold window_at.
    destruct (window <=? S t)%nat; [| exact I].
    assert (Hw : firstn window (skipn (S t - window) (price_ratio prices))
                 = price_ratio (firstn window (skipn (S t - window) prices))).
    { unfold price_ratio. rewrite skipn_map, firstn_map. reflexivity. }
    rewrite Hw.
    destruct (all_present (price_ratio (firstn window (skipn (S t - window) prices))))
      as [xs |] eqn:E; [| exact I].
    apply (std_const xs c Hsqrt).
    exact (all_present_ratio _ c Hflat xs E). }
  rewrite Hstd.
  destruct (fsub (cell (price_ratio prices) t)
                 (cell (rolling mean window (price_ratio prices)) t)); reflexivity.
Qed.

Lemma flat_window_gives_no_zscore_witness :
  exists zscore,
    calculate_zscore_safe (H := approx_lib)
      [mkRow 10 10; mkRow 12 10; mkRow 6 5; mkRow 24 20; mkRow 11 10] 3 = Ok zscore /\
    nth_error zscore 3 = Some None.
Proof.
  eexists. split; [vm_compute; reflexivity |].
  apply (flat_window_gives_no_zscore (H := approx_lib)
           [mkRow 10 10; mkRow 12 10; mkRow 6 5; mkRow 24 20; mkRow 11 10] 3 _ 3 (6 # 5)).
  - exact approx_sqrt_of_zero.
  - vm_compute. reflexivity.
  - simpl. lia.
  - repeat constructor.
Defined.

(** * Further properties of the backtest *)

(** X8: the zero-horizon failure cannot happen: [run_backtest_safe]
    either reports the empty return series or returns a result. *)
Theorem zero_horizon_unreachable `{FloatLib} (prices : list PriceRow)
    (positions : list Weights) (tc_bps : Q) (benchmark : Benchmark) :
  run_backtest_safe prices positions tc_bps benchmark <> Fail ZeroHorizon /\
  (run_backtest_safe prices positions tc_bps benchmark = Fail EmptyReturnSeries \/
   exists res, run_backtest_safe prices positions tc_bps benchmark = Ok res).
Proof.
  destruct (returns_clean prices positions tc_bps) as [| r rest] eqn:E.
  - rewrite (run_backtest_safe_fail_empty prices positions tc_bps benchmark E).
    split; [discriminate | left; reflexivity].
  - destruct (run_backtest_safe_ok prices positions tc_bps benchmark)
      as (res & Hres & _); [rewrite E; discriminate |].
    rewrite Hres. split; [discriminate | right; exists res; reflexivity].
Qed.

Lemma cumprod_from_step (s : Series) :
  forall (acc : Q) (t : nat) (e x : Q),
    nth_error (cumprod_from acc s) t = Some (Some e) ->
    nth_error s (S t) = Some (Some x) ->
    nth_error (cumprod_from acc s) (S t) = Some (Some (e * x)).
Proof.
  induction s as [| c rest IH]; intros acc t e x He Hx.
  - destruct t; discriminate.
  - destruct t as [| t].
    + destruct c as [c0 |]; simpl in He; [| discriminate].
      injection He as <-.
      simpl in Hx. destruct rest as [| c1 rest]; [discriminate |].
      simpl in Hx. injection Hx as ->. reflexivity.
    + destruct c as [c0 |]; simpl in He |- *;
        (apply IH; [exact He | exact Hx]).
Qed.

(** X9: the equity curve compounds: wherever the equity of a row and the
    net return of the next row are present, the next equity is that equity
    times one plus that net return. *)
Theorem equity_compounds (prices : list PriceRow) (positions : list Weights)
    (tc_bps : Q) (t : nat) (e x : Q) :
  cell (equity_curve prices positions tc_bps) t = Some e ->
  cell (net_returns prices positions tc_bps) (S t) = Some x ->
  cell (equity_curve prices positions tc_bps) (S t) = Some (e * (1 + x)).
Proof.
  intros He Hx.
  assert (Hlen : (S t < length (net_returns prices positions tc_bps))%nat).
  { destruct (Nat.lt_ge_cases (S t) (length (net_returns prices positions tc_bps)))
      as [Hlt | Hge]; [exact Hlt |].
    rewrite cell_beyond in Hx by exact Hge. discriminate. }
  unfold equity_curve, cumprod in *.
  apply cell_nth. apply cumprod_from_step.
  - rewrite nth_cell by (rewrite cumprod_from_length, length_map; lia).
    rewrite He. reflexivity.
  - rewrite nth_error_map, nth_cell by exact Hlen.
    rewrite Hx. reflexivity.
Qed.

Lemma equity_compounds_witness :
  cell (equity_curve sample_panel sample_positions 10) 2
  = Some (1 * (1 + (0 - 0 * tc_cost 10))
          * (1 + (strategy_at sample_panel sample_positions 1
                  - turnover_at sample_positions 1 * tc_cost 10))
          * (1 + (strategy_at sample_panel sample_positions 2
                  - turnover_at sample_positions 2 * tc_cost 10))).
Proof.
  apply (equity_compounds sample_panel sample_positions 10 1).
  - apply (equity_compounds sample_panel sample_positions 10 0).
    + apply cell_equity_curve_first. simpl. lia.
    + apply cell_net_returns_at. simpl. lia.
  - apply cell_net_returns_at. simpl. lia.
Defined.

(** ** Turnover of the positions built from the signals *)

Lemma cell_diff_next (col : list Q) (i : nat) (a b : Q) :
  nth_error col i = Some a -> nth_error col (S i) = Some b ->
  cell (diff col) (S i) = Some (b - a).
Proof.
  intros Ha Hb.
  assert (Hlen : (S i < length col)%nat).
  { apply nth_error_Some. rewrite Hb. discriminate. }
  unfold diff.
  rewrite cell_align by (rewrite length_map; lia).
  rewrite (cell_shift1_next col i a Ha Hlen).
  rewrite (cell_map_Some col (S i) b Hb).
  reflexivity.
Qed.

Lemma no_direct_flip_nth (l : list PositionState) :
  forall (t : nat) (a b : PositionState),
    no_direct_flip l ->
    nth_error l t = Some a -> nth_error l (S t) = Some b ->
    ~ (a = LongSpread /\ b = ShortSpread) /\ ~ (a = ShortSpread /\ b = LongSpread).
Proof.
  induction l as [| x r IH]; intros t a b Hflip Ha Hb.
  - destruct t; discriminate.
  - destruct r as [| y r']; [destruct t; discriminate |].
    destruct Hflip as (H1 & H2 & Hrest).
    destruct t as [| t].
    + simpl in Ha, Hb. injection Ha as <-. injection Hb as <-. split; assumption.
    + apply (IH t a b Hrest); assumption.
Qed.

Lemma cell_turnover_next (signals : list Q) (t : nat) (a b : Q) :
  nth_error signals t = Some a -> nth_error signals (S t) = Some b ->
  cell (turnover (make_positions signals)) (S t)
  = Some (sum_skipna [Some (Qabs (b * (1 # 2) - a * (1 # 2)));
                      Some (Qabs (- b * (1 # 2) - - a * (1 # 2)))]).
Proof.
  intros Ha Hb.
  assert (Hlen : (S t < length signals)%nat).
  { apply nth_error_Some. rewrite Hb. discriminate. }
  rewrite cell_turnover by (rewrite make_positions_length; exact Hlen).
  unfold make_positions. rewrite !map_map. simpl.
  rewrite (cell_diff_next (map (fun s => s * (1 # 2)) signals) t
             (a * (1 # 2)) (b * (1 # 2)))
    by (rewrite nth_error_map, ?Ha, ?Hb; reflexivity).
  rewrite (cell_diff_next (map (fun s => - s * (1 # 2)) signals) t
             (- a * (1 # 2)) (- b * (1 # 2)))
    by (rewrite nth_error_map, ?Ha, ?Hb; reflexivity).
  reflexivity.
Qed.

(** X10: the positions built from the signals never trade more than one
    unit in a period: the turnover of every row is 0 or 1 (never 2, since the
    signals do not go from one open side to the other in consecutive rows). *)
Theorem pipeline_turnover_zero_or_one (zscore : Series) (entry_threshold exit_threshold : Q)
    (signals : list Q) (t : nat) :
  generate_signals_safe zscore entry_threshold exit_threshold = Ok signals ->
  (t < length signals)%nat ->
  exists x, cell (turnover (make_positions signals)) t = Some x /\ (x == 0 \/ x == 1).
Proof.
  intros Hgen Ht.
  destruct t as [| t].
  - exists 0. split; [| left; reflexivity].
    apply cell_turnover_first. rewrite make_positions_length. exact Ht.
  - unfold generate_signals_safe in Hgen. injection Hgen as <-.
    change 0%Z with (position_of Flat) in *.
    rewrite signals_loop_scan in *.
    set (states := spec_scan entry_threshold exit_threshold Flat zscore) in *.
    rewrite length_map in Ht.
    destruct (nth_error states t) as [a |] eqn:Ea;
      [| apply nth_error_None in Ea; lia].
    destruct (nth_error states (S t)) as [b |] eqn:Eb;
      [| apply nth_error_None in Eb; lia].
    destruct (no_direct_flip_nth states t a b) as [H1 H2];
      [apply scan_no_direct_flip | exact Ea | exact Eb |].
    eexists. split.
    + apply (cell_turnover_next _ t (signal_value a) (signal_value b));
        rewrite nth_error_map, ?Ea, ?Eb; reflexivity.
    + destruct a, b; try (exfalso; tauto);
        solve [left; vm_compute; reflexivity | right; vm_compute; reflexivity].
Qed.

Lemma pipeline_turnover_zero_or_one_witness :
  exists x,
    cell (turnover (make_positions [0; inject_Z (-1); 0; 0])) 2 = Some x /\
    (x == 0 \/ x == 1).
Proof.
  apply (pipeline_turnover_zero_or_one
           [Some 0; Some 2; Some (3 # 10); Some 0] (3 # 2) (1 # 2)).
  - vm_compute. reflexivity.
  - simpl. lia.
Defined.

(** ** Changing the unit of a price, taking the other side of the trades *)

Lemma cell_pct_change_pair (col : list Q) (i : nat) (a b : Q) :
  nth_error col i = Some a -> nth_error col (S i) = Some b ->
  cell (pct_change col) (S i) = fsub (fdiv (Some b) (Some a)) (Some 1).
Proof.
  intros Ha Hb.
  assert (Hlen : (S i < length col)%nat).
  { apply nth_error_Some. rewrite Hb. discriminate. }
  unfold pct_change.
  rewrite cell_align by (rewrite length_map; lia).
  rewrite (cell_shift1_next col i a Ha Hlen).
  rewrite (cell_map_Some col (S i) b Hb).
  reflexivity.
Qed.

Lemma pct_change_scale (col : list Q) (c : Q) (i : nat) :
  ~ c == 0 ->
  feq (cell (pct_change (map (Qmult c) col)) i) (cell (pct_change col) i).
Proof.
  intros Hc. destruct i as [| i].
  - rewrite !cell_pct_change_first. exact I.
  - destruct (nth_error col (S i)) as [b |] eqn:Eb.
    + destruct (nth_error col i) as [a |] eqn:Ea.
      * rewrite (cell_pct_change_pair col i a b Ea Eb).
        rewrite (cell_pct_change_pair (map (Qmult c) col) i (c * a) (c * b))
          by (rewrite nth_error_map, ?Ea, ?Eb; reflexivity).
        simpl. destruct (Qeqb a 0) eqn:E0.
        -- apply Qeqb_eq in E0.
           assert (E1 : Qeqb (c * a) 0 = true) by (apply Qeqb_eq; rewrite E0; ring).
           rewrite E1. exact I.
        -- apply Qeqb_neq in E0.
           assert (E1 : Qeqb (c * a) 0 = false).
           { apply Qeqb_neq. intros E. apply Qmult_integral in E. tauto. }
           rewrite E1. simpl. field. tauto.
      * apply nth_error_None in Ea.
        assert (S i < length col)%nat by (apply nth_error_Some; rewrite Eb; discriminate).
        lia.
    + apply nth_error_None in Eb.
      rewrite !cell_beyond by (rewrite pct_change_length, ?length_map; exact Eb).
      exact I.
Qed.

Lemma sum_skipna_fmul_feq (l1 l2 r1 r1' r2 r2' : float) :
  feq r1 r1' -> feq r2 r2' ->
  sum_skipna [fmul l1 r1; fmul l2 r2] == sum_skipna [fmul l1 r1'; fmul l2 r2'].
Proof.
  unfold sum_skipna.
  destruct l1, l2, r1, r1', r2, r2'; simpl; intros H1 H2;
    try contradiction; rewrite ?H1, ?H2; reflexivity.
Qed.

(** X11: the backtest does not depend on the unit of a price: multiplying
    every price of a ticker by a non-zero constant leaves every net return
    unchanged. *)
Theorem price_scale_invariance (prices : list PriceRow) (positions : list Weights)
    (tc_bps c1 c2 : Q) (i : nat) :
  ~ c1 == 0 -> ~ c2 == 0 ->
  feq (cell (net_returns (scale_panel c1 c2 prices) positions tc_bps) i)
      (cell (net_returns prices positions tc_bps) i).
Proof.
  intros Hc1 Hc2.
  assert (Hlen : length (scale_panel c1 c2 prices) = length prices)
    by (unfold scale_panel; apply length_map).
  destruct (Nat.lt_ge_cases i (Nat.max (length positions) (length prices))) as [Hi | Hi].
  - rewrite !cell_net_returns by (rewrite ?Hlen; exact Hi).
    rewrite !cell_strategy_returns by (rewrite ?Hlen; exact Hi).
    unfold price_returns1, price_returns2, scale_panel.
    rewrite !map_map. simpl.
    rewrite <- (map_map price1 (Qmult c1)), <- (map_map price2 (Qmult c2)).
    pose proof (sum_skipna_fmul_feq
                  (cell (shift1 (map weight1 positions)) i)
                  (cell (shift1 (map weight2 positions)) i)
                  _ _ _ _
                  (pct_change_scale (map price1 prices) c1 i Hc1)
                  (pct_change_scale (map price2 prices) c2 i Hc2)) as Hsum.
    destruct (cell (transaction_costs positions tc_bps) i) as [k |]; simpl;
      [| exact I].
    rewrite Hsum. reflexivity.
  - rewrite !cell_beyond by (rewrite net_returns_length, ?Hlen; exact Hi).
    exact I.
Qed.

Lemma price_scale_invariance_witness :
  feq (cell (net_returns (scale_panel 100 (1 # 7) sample_panel) sample_positions 10) 2)
      (cell (net_returns sample_panel sample_positions 10) 2).
Proof.
  apply (price_scale_invariance sample_panel sample_positions 10 100 (1 # 7) 2);
    discriminate.
Defined.

Lemma shift_from_opp (col : list Q) :
  forall prev : float,
    shift_from (fopp prev) (map Qopp col) = map fopp (shift_from prev col).
Proof.
  induction col as [| x col IH]; intros prev; simpl; [reflexivity |].
  f_equal. apply (IH (Some x)).
Qed.

Lemma cell_map_fopp (s : Series) (i : nat) : cell (map fopp s) i = fopp (cell s i).
Proof.
  unfold cell. rewrite nth_error_map.
  destruct (nth_error s i); reflexivity.
Qed.

Lemma cell_shift1_opp (col : list Q) (i : nat) :
  cell (shift1 (map Qopp col)) i = fopp (cell (shift1 col) i).
Proof.
  unfold shift1. pose proof (shift_from_opp col None) as E.
  cbn [fopp option_map] in E. rewrite E. apply cell_map_fopp.
Qed.

Lemma cell_column_opp (col : list Q) (i : nat) :
  cell (map Some (map Qopp col)) i = fopp (cell (map Some col) i).
Proof.
  unfold cell. rewrite !nth_error_map.
  destruct (nth_error col i); reflexivity.
Qed.

Lemma mirror_columns (positions : list Weights) :
  map weight1 (mirror positions) = map Qopp (map weight1 positions) /\
  map weight2 (mirror positions) = map Qopp (map weight2 positions).
Proof.
  unfold mirror. rewrite !map_map. split; reflexivity.
Qed.

Lemma cell_diff (col : list Q) (i : nat) :
  (i < length col)%nat ->
  cell (diff col) i = fsub (cell (map Some col) i) (cell (shift1 col) i).
Proof.
  intros Hi. unfold diff. apply cell_align. rewrite length_map. lia.
Qed.

Lemma sum_skipna_abs_opp (a b c d : float) :
  sum_skipna [fabs (fsub (fopp a) (fopp b)); fabs (fsub (fopp c) (fopp d))]
  == sum_skipna [fabs (fsub a b); fabs (fsub c d)].
Proof.
  assert (Habs : forall x y : Q, Qabs (- x - - y) == Qabs (x - y)).
  { intros x y. rewrite <- (Qabs_opp (x - y)).
    apply Qabs_wd. ring. }
  unfold sum_skipna.
  destruct a, b, c, d;
    cbn [fabs fsub fopp flift2 option_map present Qsum];
    rewrite ?Habs; reflexivity.
Qed.

Lemma sum_skipna_fmul_opp (l1 l2 r1 r2 : float) :
  sum_skipna [fmul (fopp l1) r1; fmul (fopp l2) r2]
  == - sum_skipna [fmul l1 r1; fmul l2 r2].
Proof.
  unfold sum_skipna. destruct l1, l2, r1, r2; simpl; ring.
Qed.

(** X12: taking the other side of every trade earns the opposite gross
    return and pays the same cost: negating every weight negates the strategy
    return of every row and leaves the turnover of every row unchanged. *)
Theorem mirror_trade (prices : list PriceRow) (positions : list Weights) (i : nat) :
  feq (cell (strategy_returns prices (mirror positions)) i)
      (fopp (cell (strategy_returns prices positions) i)) /\
  feq (cell (turnover (mirror positions)) i) (cell (turnover positions) i).
Proof.
  assert (Hlen : length (mirror positions) = length positions)
    by (unfold mirror; apply length_map).
  destruct (mirror_columns positions) as [Hm1 Hm2].
  split.
  - destruct (Nat.lt_ge_cases i (Nat.max (length positions) (length prices)))
      as [Hi | Hi].
    + rewrite !cell_strategy_returns by (rewrite ?Hlen; exact Hi).
      rewrite Hm1, Hm2, !cell_shift1_opp. simpl.
      apply sum_skipna_fmul_opp.
    + rewrite !cell_beyond by (rewrite strategy_returns_length, ?Hlen; exact Hi).
      exact I.
  - destruct (Nat.lt_ge_cases i (length positions)) as [Hi | Hi].
    + rewrite !cell_turnover by (rewrite ?Hlen; exact Hi).
      rewrite Hm1, Hm2.
      rewrite !cell_diff by (rewrite !length_map; exact Hi).
      rewrite !cell_shift1_opp, !cell_column_opp. simpl.
      apply sum_skipna_abs_opp.
    + rewrite !cell_beyond by (rewrite turnover_length, ?Hlen; exact Hi).
      exact I.
Qed.

(** ** Rounding and the bounds of the metrics *)

Lemma inject_Z_le (a b : Z) : (a <= b)%Z -> inject_Z a <= inject_Z b.
Proof. intros Hab. unfold Qle. simpl. lia. Qed.

Lemma inject_Z_lt (a b : Z) : (a < b)%Z -> inject_Z a < inject_Z b.
Proof. intros Hab. unfold Qlt. simpl. lia. Qed.

Lemma round_half_even_cases (x : Q) :
  round_half_even x = Qfloor x \/
  (round_half_even x = (Qfloor x + 1)%Z /\ 1 # 2 <= x - inject_Z (Qfloor x)).
Proof.
  unfold round_half_even.
  destruct (Qltb (x - inject_Z (Qfloor x)) (1 # 2)) eqn:E1; [left; reflexivity |].
  apply Qltb_ge in E1.
  destruct (Qltb (1 # 2) (x - inject_Z (Qfloor x))); [right; split; trivial |].
  destruct (Z.even (Qfloor x)); [left; reflexivity | right; split; trivial].
Qed.

Lemma round_half_even_ge (x : Q) (a : Z) :
  inject_Z a <= x -> (a <= round_half_even x)%Z.
Proof.
  intros Hx.
  assert (Hf : (a <= Qfloor x)%Z).
  { rewrite <- (Qfloor_Z a). apply Qfloor_resp_le. exact Hx. }
  destruct (round_half_even_cases x) as [-> | [-> _]]; lia.
Qed.

Lemma round_half_even_le (x : Q) (b : Z) :
  x <= inject_Z b -> (round_half_even x <= b)%Z.
Proof.
  intros Hx.
  assert (Hf : (Qfloor x <= b)%Z).
  { rewrite <- (Qfloor_Z b). apply Qfloor_resp_le. exact Hx. }
  destruct (round_half_even_cases x) as [-> | [-> Hd]]; [exact Hf |].
  destruct (Z.eq_dec (Qfloor x) b) as [E | E]; [| lia].
  exfalso. rewrite E in Hd. lra.
Qed.

Lemma scale_pos (ndigits : nat) : 0 < inject_Z (10 ^ Z.of_nat ndigits).
Proof.
  change 0 with (inject_Z 0). apply inject_Z_lt.
  apply Z.pow_pos_nonneg; lia.
Qed.

Lemma round_nd_le (q : Q) (ndigits : nat) (b : Z) :
  q <= inject_Z b ->
  exists r, round_nd (Some q) ndigits = Some r /\ r <= inject_Z b.
Proof.
  intros Hq. eexists. split; [reflexivity |].
  pose proof (scale_pos ndigits) as Hs.
  set (s := (10 ^ Z.of_nat ndigits)%Z) in *.
  apply Qle_shift_div_r; [exact Hs |].
  rewrite <- inject_Z_mult. apply inject_Z_le.
  apply round_half_even_le.
  rewrite inject_Z_mult.
  apply Qmult_le_compat_r; [exact Hq | apply Qlt_le_weak; exact Hs].
Qed.

Lemma round_nd_ge (q : Q) (ndigits : nat) (a : Z) :
  inject_Z a <= q ->
  exists r, round_nd (Some q) ndigits = Some r /\ inject_Z a <= r.
Proof.
  intros Hq. eexists. split; [reflexivity |].
  pose proof (scale_pos ndigits) as Hs.
  set (s := (10 ^ Z.of_nat ndigits)%Z) in *.
  apply Qle_shift_div_l; [exact Hs |].
  rewrite <- inject_Z_mult. apply inject_Z_le.
  apply round_half_even_ge.
  rewrite inject_Z_mult.
  apply Qmult_le_compat_r; [exact Hq | apply Qlt_le_weak; exact Hs].
Qed.

Lemma hit_rate_bounds (rets : list Q) :
  exists h, hit_rate rets = Some h /\ 0 <= h /\ h <= 100.
Proof.
  unfold hit_rate.
  set (w := length (filter (fun r => Qgtb r 0) rets)).
  set (l := length (filter (fun r => Qltb r 0) rets)).
  destruct (0 <? w + l)%nat eqn:E.
  - apply Nat.ltb_lt in E. eexists. split; [reflexivity |].
    assert (Hw : 0 <= inject_Z (Z.of_nat w)).
    { change 0 with (inject_Z 0). apply inject_Z_le. lia. }
    assert (Ht : 0 < inject_Z (Z.of_nat (w + l))).
    { change 0 with (inject_Z 0). apply inject_Z_lt. lia. }
    assert (Hwt : inject_Z (Z.of_nat w) <= inject_Z (Z.of_nat (w + l))).
    { apply inject_Z_le. lia. }
    assert (Hq : 0 <= inject_Z (Z.of_nat w) / inject_Z (Z.of_nat (w + l))
                 /\ inject_Z (Z.of_nat w) / inject_Z (Z.of_nat (w + l)) <= 1).
    { split.
      - apply Qle_shift_div_l; [exact Ht | lra].
      - apply Qle_shift_div_r; [exact Ht | lra]. }
    lra.
  - exists 0. split; [reflexivity |]. lra.
Qed.

Lemma run_backtest_safe_metrics_ok `{FloatLib} (prices : list PriceRow)
    (positions : list Weights) (tc_bps : Q) (benchmark : Benchmark) :
  returns_clean prices positions tc_bps <> [] ->
  exists res,
    run_backtest_safe prices positions tc_bps benchmark = Ok res /\
    res_returns res = net_returns prices positions tc_bps /\
    res_equity_curve res = equity_curve prices positions tc_bps /\
    res_drawdown res = drawdown prices positions tc_bps /\
    res_gross_exposure res = gross_exposure positions /\
    res_net_exposure res = net_exposure positions /\
    res_turnover res = turnover positions /\
    metric "Hit Rate (%)" (res_metrics res)
    = round_nd (hit_rate (values (returns_clean prices positions tc_bps))) 2 /\
    metric "Max Drawdown (%)" (res_metrics res)
    = round_nd (series_min (drawdown prices positions tc_bps)) 2 /\
    metric "Avg Net Exposure" (res_metrics res)
    = round_nd (mean (present (net_exposure positions))) 3 /\
    metric "Avg Gross Exposure" (res_metrics res)
    = round_nd (mean (present (gross_exposure positions))) 2 /\
    metric "Trading Days" (res_metrics res)
    = Some (inject_Z (Z.of_nat (length (returns_clean prices positions tc_bps)))).
Proof.
  intros Hne. unfold run_backtest_safe.
  destruct (returns_clean prices positions tc_bps) as [| r rest] eqn:E;
    [contradiction |].
  replace (length (r :: rest) =? 0)%nat with false by reflexivity.
  rewrite years_nonzero by (simpl; lia).
  destruct (market_beta prices positions tc_bps benchmark) as [beta correlation].
  eexists. split; [reflexivity |].
  repeat split; reflexivity.
Qed.

Lemma run_backtest_safe_metrics `{FloatLib} (prices : list PriceRow)
    (positions : list Weights) (tc_bps : Q) (benchmark : Benchmark)
    (res : BacktestResult) :
  run_backtest_safe prices positions tc_bps benchmark = Ok res ->
  positions <> [] /\
  res_returns res = net_returns prices positions tc_bps /\
  res_equity_curve res = equity_curve prices positions tc_bps /\
  res_drawdown res = drawdown prices positions tc_bps /\
  res_gross_exposure res = gross_exposure positions /\
  res_net_exposure res = net_exposure positions /\
  res_turnover res = turnover positions /\
  metric "Hit Rate (%)" (res_metrics res)
  = round_nd (hit_rate (values (returns_clean prices positions tc_bps))) 2 /\
  metric "Max Drawdown (%)" (res_metrics res)
  = round_nd (series_min (drawdown prices positions tc_bps)) 2 /\
  metric "Avg Net Exposure" (res_metrics res)
  = round_nd (mean (present (net_exposure positions))) 3 /\
  metric "Avg Gross Exposure" (res_metrics res)
  = round_nd (mean (present (gross_exposure positions))) 2 /\
  metric "Trading Days" (res_metrics res)
  = Some (inject_Z (Z.of_nat (length (returns_clean prices positions tc_bps)))).
Proof.
  intros Hrun.
  assert (Hne : returns_clean prices positions tc_bps <> []).
  { intros E.
    rewrite (run_backtest_safe_fail_empty prices positions tc_bps benchmark E) in Hrun.
    discriminate. }
  split.
  { intros E. apply Hne. apply returns_clean_nil. exact E. }
  destruct (run_backtest_safe_metrics_ok prices positions tc_bps benchmark Hne)
    as (res' & Hres' & Hprops).
  rewrite Hrun in Hres'. injection Hres' as <-. exact Hprops.
Qed.

(** X13: the hit rate a result reports lies between 0 and 100. *)
Theorem hit_rate_metric_bounds `{FloatLib} (prices : list PriceRow)
    (positions : list Weights) (tc_bps : Q) (benchmark : Benchmark)
    (res : BacktestResult) :
  run_backtest_safe prices positions tc_bps benchmark = Ok res ->
  exists h,
    metric "Hit Rate (%)" (res_metrics res) = Some h /\ 0 <= h /\ h <= 100.
Proof.
  intros Hrun.
  destruct (run_backtest_safe_metrics _ _ _ _ _ Hrun)
    as (_ & _ & _ & _ & _ & _ & _ & Hhit & _).
  rewrite Hhit.
  destruct (hit_rate_bounds (values (returns_clean prices positions tc_bps)))
    as (h & -> & Hlo & Hhi).
  destruct (round_nd_ge h 2 0 Hlo) as (r & Hr & Hr0).
  destruct (round_nd_le h 2 100 Hhi) as (r' & Hr' & Hr100).
  rewrite Hr in Hr'. injection Hr' as <-.
  exists r. split; [exact Hr |]. split; assumption.
Qed.

Lemma hit_rate_metric_bounds_witness :
  exists res,
    run_backtest_safe (H := approx_lib) sample_panel sample_positions 10
      sample_benchmark = Ok res /\
    exists h,
      metric "Hit Rate (%)" (res_metrics res) = Some h /\ 0 <= h /\ h <= 100.
Proof.
  eexists. split; [vm_compute; reflexivity |].
  apply (hit_rate_metric_bounds (H := approx_lib) sample_panel sample_positions 10
           sample_benchmark).
  vm_compute. reflexivity.
Defined.

Lemma fold_left_Qmin_le (l : list Q) :
  forall x : Q, fold_left Qmin l x <= x.
Proof.
  induction l as [| y l IH]; intros x; simpl.
  - apply Qle_refl.
  - apply Qle_trans with (Qmin x y); [apply IH | apply Q.le_min_l].
Qed.

Lemma series_min_le_first (s : Series) (d : Q) :
  cell s 0 = Some d ->
  exists m, series_min s = Some m /\ m <= d.
Proof.
  intros Hd. destruct s as [| c rest]; [discriminate Hd |].
  unfold cell in Hd. simpl in Hd. subst c.
  unfold series_min. simpl.
  eexists. split; [reflexivity | apply fold_left_Qmin_le].
Qed.

(** X14: the maximum drawdown a result reports is never positive (for a
    panel of positive prices and an index-aligned position frame). *)
Theorem max_drawdown_metric_nonpositive `{FloatLib} (prices : list PriceRow)
    (positions : list Weights) (tc_bps : Q) (benchmark : Benchmark)
    (res : BacktestResult) :
  positive_panel prices ->
  length positions = length prices ->
  run_backtest_safe prices positions tc_bps benchmark = Ok res ->
  exists m, metric "Max Drawdown (%)" (res_metrics res) = Some m /\ m <= 0.
Proof.
  intros _ Hlen Hrun.
  destruct (run_backtest_safe_metrics _ _ _ _ _ Hrun)
    as (Hne & _ & _ & _ & _ & _ & _ & _ & Hdd & _).
  rewrite Hdd.
  assert (Hpos : (0 < length positions)%nat).
  { destruct positions; [contradiction | simpl; lia]. }
  destruct (drawdown_cell_bound prices positions tc_bps 0 Hpos) as (d & Hd & Hd0).
  destruct (series_min_le_first _ d Hd) as (m & -> & Hm).
  apply (round_nd_le m 2 0). apply Qle_trans with d; assumption.
Qed.

Lemma max_drawdown_metric_nonpositive_witness :
  exists res,
    run_backtest_safe (H := approx_lib) sample_panel sample_positions 10
      sample_benchmark = Ok res /\
    exists m, metric "Max Drawdown (%)" (res_metrics res) = Some m /\ m <= 0.
Proof.
  eexists. split; [vm_compute; reflexivity |].
  apply (max_drawdown_metric_nonpositive (H := approx_lib) sample_panel
           sample_positions 10 sample_benchmark).
  - repeat constructor.
  - reflexivity.
  - vm_compute. reflexivity.
Defined.

(** ** The runs of [main] *)

Lemma pipeline_inv `{FloatLib} (prices : list PriceRow) (benchmark : Benchmark)
    (window : nat) (entry exit cost : Q) (res : BacktestResult) :
  pipeline prices benchmark window entry exit cost = Ok res ->
  exists zscore,
    calculate_zscore_safe prices window = Ok zscore /\
    run_backtest_safe prices
      (make_positions (signals_loop entry exit 0 zscore)) cost benchmark = Ok res.
Proof.
  unfold pipeline. intros Hrun.
  destruct (calculate_zscore_safe prices window) as [zscore | e]; [| discriminate].
  exists zscore. split; [reflexivity | exact Hrun].
Qed.

Lemma net_exposure_cells (signals : list Q) (i : nat) :
  (i < length signals)%nat ->
  exists x, cell (net_exposure (make_positions signals)) i = Some x /\ x == 0.
Proof.
  intros Hi.
  destruct (nth_error signals i) as [s |] eqn:Es;
    [| apply nth_error_None in Es; lia].
  assert (Hw : nth_error (make_positions signals) i
               = Some (mkWeights (s * (1 # 2)) (- s * (1 # 2)))).
  { unfold make_positions. rewrite nth_error_map, Es. reflexivity. }
  unfold net_exposure.
  rewrite cell_row_sum by (rewrite !length_map, make_positions_length; lia).
  rewrite !(cell_map _ _ _ _ Hw).
  eexists. split; [reflexivity |].
  unfold sum_skipna. simpl. ring.
Qed.

Lemma present_all_zero (s : Series) :
  (forall i, (i < length s)%nat -> exists x, cell s i = Some x /\ x == 0) ->
  length (present s) = length s /\ Forall (fun x => x == 0) (present s).
Proof.
  induction s as [| c rest IH]; intros Hall; [split; [reflexivity | constructor] |].
  destruct (Hall 0%nat) as (x & Hx & Hx0); [simpl; lia |].
  unfold cell in Hx. simpl in Hx. subst c.
  destruct IH as [Hl Hz].
  { intros i Hi. apply (Hall (S i)). simpl. lia. }
  simpl. split; [rewrite Hl; reflexivity | constructor; assumption].
Qed.

Lemma round_nd_zero (q : Q) (ndigits : nat) :
  q == 0 -> exists r, round_nd (Some q) ndigits = Some r /\ r == 0.
Proof.
  intros Hq.
  destruct (round_nd_le q ndigits 0) as (r & Hr & Hle); [rewrite Hq; apply Qle_refl |].
  destruct (round_nd_ge q ndigits 0) as (r' & Hr' & Hge); [rewrite Hq; apply Qle_refl |].
  rewrite Hr in Hr'. injection Hr' as <-.
  exists r. split; [exact Hr | apply Qle_antisym; assumption].
Qed.

(** X15: every run of the pipeline of [main] that returns a result reports
    an average net exposure of 0, so the exposure check of [main]
    ([abs(net_exp) < 0.1]) passes. *)
Theorem pipeline_is_dollar_neutral `{FloatLib} (prices : list PriceRow)
    (benchmark : Benchmark) (window : nat)
    (entry_threshold exit_threshold transaction_cost : Q) (res : BacktestResult) :
  pipeline prices benchmark window entry_threshold exit_threshold transaction_cost
  = Ok res ->
  feq (metric "Avg Net Exposure" (res_metrics res)) (Some 0) /\
  exposure_check (metric "Avg Net Exposure" (res_metrics res)) = true.
Proof.
  intros Hrun.
  destruct (pipeline_inv _ _ _ _ _ _ _ Hrun) as (zscore & _ & Hback).
  set (signals := signals_loop entry_threshold exit_threshold 0 zscore) in *.
  destruct (run_backtest_safe_metrics _ _ _ _ _ Hback)
    as (Hne & _ & _ & _ & _ & _ & _ & _ & _ & Hnet & _).
  rewrite Hnet.
  assert (Hlen : length (net_exposure (make_positions signals)) = length signals).
  { unfold net_exposure.
    rewrite row_sum_length, !length_map, make_positions_length. lia. }
  destruct (present_all_zero (net_exposure (make_positions signals))) as [Hl Hz].
  { intros i Hi. apply net_exposure_cells. rewrite <- Hlen. exact Hi. }
  assert (Hpne : present (net_exposure (make_positions signals)) <> []).
  { intros E. rewrite E in Hl. simpl in Hl.
    apply Hne. apply length_zero_iff_nil.
    rewrite make_positions_length. lia. }
  destruct (mean_const _ 0 Hpne Hz) as (m & -> & Hm).
  destruct (round_nd_zero m 3 Hm) as (r & -> & Hr).
  split; [exact Hr |].
  simpl. apply Qltb_lt. rewrite Hr. reflexivity.
Qed.

Lemma pipeline_is_dollar_neutral_witness :
  exists res,
    pipeline (H := approx_lib) sample_panel sample_benchmark 3 (1 # 2) (1 # 10) 10
    = Ok res /\
    feq (metric "Avg Net Exposure" (res_metrics res)) (Some 0) /\
    exposure_check (metric "Avg Net Exposure" (res_metrics res)) = true.
Proof.
  eexists. split; [vm_compute; reflexivity |].
  apply (pipeline_is_dollar_neutral (H := approx_lib) sample_panel sample_benchmark
           3 (1 # 2) (1 # 10) 10).
  vm_compute. reflexivity.
Defined.



(** ** The benchmark taken from the panel *)

Lemma dropna_from_labels (s : Series) :
  forall i : nat,
    Forall (fun c => c <> None) s ->
    labels (dropna_from i s) = seq i (length s).
Proof.
  induction s as [| c rest IH]; intros i Hall; [reflexivity |].
  inversion Hall as [| ? ? Hc Hrest]; subst.
  destruct c as [x |]; [| contradiction].
  simpl. rewrite (IH (S i) Hrest). reflexivity.
Qed.

Lemma pct_change_positive (col : list Q) :
  col <> [] -> Forall (fun p => 0 < p) col ->
  exists rest : Series,
    pct_change col = None :: rest /\
    Forall (fun c => c <> None) rest /\
    length rest = (length col - 1)%nat.
Proof.
  intros Hne Hpos.
  pose proof (pct_change_length col) as Hlen.
  pose proof (cell_pct_change_first col) as Hfirst.
  destruct (pct_change col) as [| c rest] eqn:E.
  - destruct col; [contradiction | discriminate Hlen].
  - unfold cell in Hfirst. simpl in Hfirst. subst c.
    exists rest. split; [reflexivity |].
    simpl in Hlen. split; [| lia].
    apply Forall_cells. intros i Hi.
    assert (Hc : cell rest i = cell (pct_change col) (S i)).
    { rewrite E. reflexivity. }
    rewrite Hc.
    destruct (nth_error col i) as [a |] eqn:Ea;
      [| apply nth_error_None in Ea; lia].
    destruct (nth_error col (S i)) as [b |] eqn:Eb;
      [| apply nth_error_None in Eb; lia].
    rewrite (cell_pct_change_next col i a b Ea Eb); [discriminate |].
    rewrite Forall_forall in Hpos.
    assert (Ha : 0 < a) by (apply Hpos; eapply nth_error_In; exact Ea).
    intros E0. rewrite E0 in Ha. discriminate.
Qed.

Lemma existsb_seq (d a k : nat) :
  existsb (Nat.eqb d) (seq a k) = true <-> (a <= d < a + k)%nat.
Proof.
  rewrite existsb_exists. split.
  - intros (x & Hin & Hx). apply Nat.eqb_eq in Hx. subst x.
    apply in_seq in Hin. exact Hin.
  - intros Hd. exists d. split; [apply in_seq; exact Hd | apply Nat.eqb_refl].
Qed.

Lemma filter_all {A : Type} (p : A -> bool) (l : list A) :
  (forall x, In x l -> p x = true) -> filter p l = l.
Proof.
  induction l as [| x l IH]; intros Hall; simpl; [reflexivity |].
  rewrite (Hall x (or_introl eq_refl)). f_equal.
  apply IH. intros y Hy. apply Hall. right. exact Hy.
Qed.

Lemma overlap_with_tail (n : nat) :
  filter (fun d => existsb (Nat.eqb d) (seq 1 (n - 1))) (seq 0 n) = seq 1 (n - 1).
Proof.
  destruct n as [| k]; [reflexivity |].
  replace (S k - 1)%nat with k by lia.
  change (seq 0 (S k)) with (0%nat :: seq 1 k).
  cbn [filter].
  destruct (existsb (Nat.eqb 0) (seq 1 k)) eqn:E.
  - apply existsb_seq in E. lia.
  - apply filter_all. intros d Hd. apply existsb_seq. apply in_seq in Hd. exact Hd.
Qed.

Lemma panel_common_dates (prices : list PriceRow) (positions : list Weights)
    (tc_bps : Q) (column : list Q) :
  length positions = length prices ->
  length column = length prices ->
  Forall (fun p => 0 < p) column ->
  common_dates prices positions tc_bps (dropna (pct_change column))
  = seq 1 (length prices - 1).
Proof.
  intros Hlen Hcol Hpos.
  unfold common_dates, index_intersection, returns_clean, dropna.
  rewrite (dropna_from_labels (net_returns prices positions tc_bps) 0)
    by (apply net_returns_no_missing; exact Hlen).
  rewrite net_returns_length.
  replace (Nat.max (length positions) (length prices)) with (length prices) by lia.
  destruct column as [| p column'] eqn:Ec.
  - simpl in Hcol. rewrite <- Hcol. reflexivity.
  - rewrite <- Ec in *.
    destruct (pct_change_positive column) as (rest & Hpc & Hrest & Hrl);
      [rewrite Ec; discriminate | exact Hpos |].
    rewrite Hpc. simpl dropna_from.
    rewrite (dropna_from_labels rest 1 Hrest), Hrl, Hcol.
    apply overlap_with_tail.
Qed.

(** X17: when the benchmark is a column of the panel (positive prices,
    index-aligned frames of [n] rows), the strategy and benchmark returns
    share the [n - 1] dates after the first row; so beta and correlation keep
    their default 0 on every panel of at most 21 rows and are computed from
    the aligned returns on every panel of at least 22 rows. *)
Theorem panel_benchmark_overlap `{FloatLib} (prices : list PriceRow)
    (positions : list Weights) (tc_bps : Q) (column : list Q) :
  positive_panel prices ->
  length positions = length prices ->
  length column = length prices ->
  Forall (fun p => 0 < p) column ->
  common_dates prices positions tc_bps (dropna (pct_change column))
  = seq 1 (length prices - 1) /\
  ((length prices <= 21)%nat ->
   market_beta prices positions tc_bps (InPanel column) = (Some 0, Some 0)) /\
  ((22 <= length prices)%nat ->
   exists returns_aligned benchmark_aligned,
     loc (returns_clean prices positions tc_bps) (seq 1 (length prices - 1))
     = Some returns_aligned /\
     loc (dropna (pct_change column)) (seq 1 (length prices - 1))
     = Some benchmark_aligned /\
     market_beta prices positions tc_bps (InPanel column)
     = (if fpos (var benchmark_aligned)
        then fdiv (cov returns_aligned benchmark_aligned) (var benchmark_aligned)
        else Some 0,
        corr returns_aligned benchmark_aligned)).
Proof.
  intros _ Hlen Hcol Hpos.
  pose proof (panel_common_dates prices positions tc_bps column Hlen Hcol Hpos) as Hcd.
  split; [exact Hcd |].
  unfold market_beta. cbn [benchmark_returns]. rewrite Hcd, length_seq.
  split.
  - intros Hn.
    replace (20 <? length prices - 1)%nat with false
      by (symmetry; apply Nat.ltb_ge; lia).
    reflexivity.
  - intros Hn.
    replace (20 <? length prices - 1)%nat with true
      by (symmetry; apply Nat.ltb_lt; lia).
    destruct (loc_total (returns_clean prices positions tc_bps)
                (seq 1 (length prices - 1))) as [ra Hra].
    { rewrite <- Hcd. apply index_intersection_left. }
    destruct (loc_total (dropna (pct_change column)) (seq 1 (length prices - 1)))
      as [ba Hba].
    { rewrite <- Hcd. apply index_intersection_right. }
    exists ra, ba. rewrite Hra, Hba. repeat split; reflexivity.
Qed.

Lemma panel_benchmark_overlap_witness :
  common_dates see_saw_panel held_positions 10 (dropna (pct_change see_saw_column))
  = seq 1 (length see_saw_panel - 1) /\
  market_beta (H := approx_lib) see_saw_panel held_positions 10 (InPanel see_saw_column)
  = (Some 0, Some 0).
Proof.
  destruct (panel_benchmark_overlap (H := approx_lib) see_saw_panel held_positions 10
              see_saw_column) as (Hcd & Hfew & _).
  - unfold positive_panel, see_saw_panel. apply Forall_map.
    apply Forall_forall. intros p Hp. split; [| reflexivity].
    vm_compute in Hp.
    repeat (destruct Hp as [<- | Hp]; [reflexivity |]). contradiction.
  - reflexivity.
  - reflexivity.
  - apply Forall_forall. intros p Hp. vm_compute in Hp.
    repeat (destruct Hp as [<- | Hp]; [reflexivity |]). contradiction.
  - split; [exact Hcd |]. apply Hfew. vm_compute. 
    repeat constructor.
Defined.

(** * Properties of [fetch_data_safe] *)

Lemma dict_set_keys (k : string) (v : History) (d : list (string * History)) (x : string) :
  In x (map fst (dict_set k v d)) <-> x = k \/ In x (map fst d).
Proof.
  induction d as [| [k' v'] rest IH]; simpl.
  - split; [intros [E | []]; left; symmetry; exact E | intros [E | []]; left; symmetry; exact E].
  - destruct (String.eqb_spec k k') as [E | E]; simpl.
    + subst k'. intuition congruence.
    + rewrite IH. tauto.
Qed.

Lemma dict_set_new (k : string) (v : History) (d : list (string * History)) :
  ~ In k (map fst d) -> dict_set k v d = d ++ [(k, v)].
Proof.
  induction d as [| [k' v'] rest IH]; intros Hk; simpl; [reflexivity |].
  destruct (String.eqb_spec k k') as [E | E].
  - exfalso. apply Hk. left. symmetry. exact E.
  - rewrite IH; [reflexivity |]. intros Hin. apply Hk. right. exact Hin.
Qed.

Lemma close_columns_keys_from (histories d : list (string * History)) (x : string) :
  In x (map fst (fold_left (fun d kv => dict_set (fst kv) (snd kv) d) histories d))
  <-> In x (map fst d) \/ In x (map fst histories).
Proof.
  revert d. induction histories as [| [k v] rest IH]; intros d; simpl.
  - tauto.
  - rewrite IH, dict_set_keys. intuition congruence.
Qed.

Lemma close_columns_keys (histories : list (string * History)) (x : string) :
  In x (map fst (close_columns histories)) <-> In x (map fst histories).
Proof.
  unfold close_columns. rewrite close_columns_keys_from. simpl. tauto.
Qed.

Lemma close_columns_distinct_from (histories d : list (string * History)) :
  NoDup (map fst (d ++ histories)) ->
  fold_left (fun d kv => dict_set (fst kv) (snd kv) d) histories d = d ++ histories.
Proof.
  revert d. induction histories as [| [k v] rest IH]; intros d Hnd; simpl.
  - symmetry. apply app_nil_r.
  - rewrite dict_set_new.
    + rewrite IH; rewrite <- app_assoc; [reflexivity | exact Hnd].
    + rewrite map_app in Hnd. simpl in Hnd.
      apply NoDup_remove_2 in Hnd. intros Hin. apply Hnd.
      apply in_or_app. left. exact Hin.
Qed.

Lemma close_columns_distinct (histories : list (string * History)) :
  NoDup (map fst histories) -> close_columns histories = histories.
Proof.
  intros Hnd. unfold close_columns.
  exact (close_columns_distinct_from histories [] Hnd).
Qed.

Lemma insert_date_In (d : nat) (index : list nat) (x : nat) :
  In x (insert_date d index) <-> x = d \/ In x index.
Proof.
  induction index as [| y rest IH]; simpl.
  - split; intros [E | []]; left; symmetry; exact E.
  - destruct (d <? y)%nat; simpl; [intuition congruence |].
    destruct (Nat.eqb_spec d y) as [E | E]; simpl.
    + subst y. intuition congruence.
    + rewrite IH. intuition congruence.
Qed.

Lemma insert_date_ascending (d : nat) (index : list nat) :
  ascending index -> ascending (insert_date d index).
Proof.
  unfold ascending.
  induction 1 as [| y rest Hrest IH Hy]; simpl.
  - constructor; constructor.
  - destruct (Nat.ltb_spec d y) as [Hlt | Hge].
    + constructor; [constructor; assumption |].
      constructor; [exact Hlt |].
      eapply Forall_impl; [| exact Hy]. intros z Hz. lia.
    + destruct (Nat.eqb_spec d y) as [E | E]; [constructor; assumption |].
      constructor; [exact IH |].
      apply Forall_forall. intros z Hz. apply insert_date_In in Hz.
      destruct Hz as [-> | Hz]; [lia |].
      rewrite Forall_forall in Hy. apply Hy. exact Hz.
Qed.

Lemma insert_rows_In (rows : History) (index : list nat) (x : nat) :
  In x (fold_left (fun i row => insert_date (fst row) i) rows index)
  <-> In x index \/ In x (map fst rows).
Proof.
  revert index. induction rows as [| [d c] rest IH]; intros index; simpl.
  - tauto.
  - rewrite IH, insert_date_In. intuition congruence.
Qed.

Lemma insert_rows_ascending (rows : History) (index : list nat) :
  ascending index ->
  ascending (fold_left (fun i row => insert_date (fst row) i) rows index).
Proof.
  revert index. induction rows as [| [d c] rest IH]; intros index Hidx; simpl.
  - exact Hidx.
  - apply IH. apply insert_date_ascending. exact Hidx.
Qed.

Lemma union_index_from_In (columns : list (string * History)) (index : list nat) (x : nat) :
  In x (fold_left
          (fun index column =>
             fold_left (fun i row => insert_date (fst row) i) (snd column) index)
          columns index)
  <-> In x index \/ exists column, In column columns /\ In x (map fst (snd column)).
Proof.
  revert index. induction columns as [| col rest IH]; intros index; simpl.
  - split; [tauto | intros [H | (c & [] & _)]; exact H].
  - rewrite IH, insert_rows_In. split.
    + intros [[H | H] | (c & Hc & Hx)].
      * left. exact H.
      * right. exists col. split; [left; reflexivity | exact H].
      * right. exists c. split; [right; exact Hc | exact Hx].
    + intros [H | (c & [-> | Hc] & Hx)].
      * left. left. exact H.
      * left. right. exact Hx.
      * right. exists c. split; assumption.
Qed.

Lemma union_index_In (columns : list (string * History)) (x : nat) :
  In x (union_index columns)
  <-> exists column, In column columns /\ In x (map fst (snd column)).
Proof.
  unfold union_index. rewrite union_index_from_In. simpl. tauto.
Qed.

Lemma union_index_ascending (columns : list (string * History)) :
  ascending (union_index columns).
Proof.
  unfold union_index.
  assert (Hgen : forall index,
             ascending index ->
             ascending
               (fold_left
                  (fun index column =>
                     fold_left (fun i row => insert_date (fst row) i) (snd column) index)
                  columns index)).
  { induction columns as [| col rest IH]; intros index Hidx; simpl.
    - exact Hidx.
    - apply IH. apply insert_rows_ascending. exact Hidx. }
  apply Hgen. constructor.
Qed.

Lemma lookup_close_found (h : History) (d : nat) (q : Q) :
  lookup_close d h = Some q -> In (d, Some q) h.
Proof.
  induction h as [| [d' c] rest IH]; simpl; [discriminate |].
  destruct (Nat.eqb_spec d d') as [E | E].
  - intros ->. left. subst d'. reflexivity.
  - intros Hq. right. apply IH. exact Hq.
Qed.

Lemma lookup_close_unique (h : History) (d : nat) (q : Q) :
  ascending (map fst h) -> In (d, Some q) h -> lookup_close d h = Some q.
Proof.
  unfold ascending.
  induction h as [| [d' c] rest IH]; intros Hasc Hin; [contradiction |].
  simpl in Hasc. apply StronglySorted_inv in Hasc. destruct Hasc as [Hrest Hd'].
  simpl. destruct (Nat.eqb_spec d d') as [E | E].
  - destruct Hin as [Hhead | Htail]; [congruence |].
    exfalso. subst d'. rewrite Forall_forall in Hd'.
    assert (Hlt : (d < d)%nat).
    { apply Hd'. apply in_map_iff. exists (d, Some q). split; [reflexivity | exact Htail]. }
    lia.
  - destruct Hin as [Hhead | Htail]; [congruence |].
    apply IH; assumption.
Qed.


Lemma all_present_nth (cells : list float) (closes : list Q) (j : nat) (c : float) :
  all_present cells = Some closes ->
  nth_error cells j = Some c ->
  exists q, c = Some q /\ nth_error closes j = Some q.
Proof.
  revert closes j. induction cells as [| [x |] rest IH]; intros closes j Hc Hj; simpl in Hc.
  - destruct j; discriminate.
  - destruct (all_present rest) as [xs |] eqn:E; [| discriminate].
    injection Hc as <-.
    destruct j as [| j]; simpl in Hj.
    + injection Hj as <-. exists x. split; reflexivity.
    + apply (IH xs j eq_refl Hj).
  - discriminate.
Qed.

Lemma all_present_total (cells : list float) :
  Forall (fun c => c <> None) cells -> exists closes, all_present cells = Some closes.
Proof.
  induction 1 as [| c rest Hc _ [xs IH]]; simpl.
  - exists []. reflexivity.
  - destruct c as [x |]; [| contradiction].
    rewrite IH. exists (x :: xs). reflexivity.
Qed.

Lemma dropna_rows_In (rows : list (nat * list float)) (d : nat) (closes : list Q) :
  In (d, closes) (dropna_rows rows)
  <-> exists cells, In (d, cells) rows /\ all_present cells = Some closes.
Proof.
  induction rows as [| [d' cells'] rest IH]; simpl.
  - split; [contradiction | intros (c & [] & _)].
  - destruct (all_present cells') as [closes' |] eqn:E; simpl; rewrite IH; split.
    + intros [Hhead | (c & Hc & Hp)].
      * injection Hhead as <- <-. exists cells'. split; [left; reflexivity | exact E].
      * exists c. split; [right; exact Hc | exact Hp].
    + intros (c & [Hhead | Hc] & Hp).
      * injection Hhead as <- <-. left. congruence.
      * right. exists c. split; assumption.
    + intros (c & Hc & Hp). exists c. split; [right; exact Hc | exact Hp].
    + intros (c & [Hhead | Hc] & Hp).
      * injection Hhead as <- <-. congruence.
      * exists c. split; assumption.
Qed.

Lemma dropna_rows_ascending (rows : list (nat * list float)) :
  ascending (map fst rows) -> ascending (map fst (dropna_rows rows)).
Proof.
  unfold ascending.
  induction rows as [| [d cells] rest IH]; intros Hasc; simpl; [constructor |].
  simpl in Hasc. apply StronglySorted_inv in Hasc. destruct Hasc as [Hrest Hd].
  destruct (all_present cells) as [closes |]; [| apply IH; exact Hrest].
  simpl. constructor; [apply IH; exact Hrest |].
  apply Forall_forall. intros x Hx.
  apply in_map_iff in Hx. destruct Hx as ([x' closes'] & <- & Hin).
  apply dropna_rows_In in Hin. destruct Hin as (c & Hc & _).
  rewrite Forall_forall in Hd. apply Hd.
  apply in_map_iff. exists (x', c). split; [reflexivity | exact Hc].
Qed.

Lemma build_frame_dates (columns : list (string * History)) :
  map fst (build_frame columns) = union_index columns.
Proof.
  unfold build_frame. rewrite map_map. simpl. apply map_id.
Qed.

Lemma fetch_data_safe_ok (histories : list (string * History)) (prices : PriceFrame) :
  fetch_data_safe histories = Ok prices ->
  Forall (fun h => snd h <> []) histories /\
  frame_columns prices = map fst (close_columns histories) /\
  frame_rows prices = dropna_rows (build_frame (close_columns histories)) /\
  (100 <= length (frame_rows prices))%nat.
Proof.
  unfold fetch_data_safe.
  destruct (forallb (fun h => (0 <? length (snd h))%nat) histories) eqn:Eall;
    simpl; [| discriminate].
  destruct (length (dropna_rows (build_frame (close_columns histories))) <? 100)%nat
    eqn:Elen; [discriminate |].
  intros Hok. injection Hok as <-. simpl.
  split; [| split; [reflexivity | split; [reflexivity |]]].
  - rewrite forallb_forall in Eall. apply Forall_forall. intros h Hh E.
    specialize (Eall h Hh). rewrite E in Eall. discriminate.
  - apply Nat.ltb_ge in Elen. exact Elen.
Qed.





Lemma build_frame_In (columns : list (string * History)) (d : nat) (cells : list float) :
  In (d, cells) (build_frame columns)
  <-> In d (union_index columns) /\
      cells = map (fun column => lookup_close d (snd column)) columns.
Proof.
  unfold build_frame. rewrite in_map_iff. split.
  - intros (d' & Heq & Hin). injection Heq as -> <-. split; [exact Hin | reflexivity].
  - intros [Hin ->]. exists d. split; [reflexivity | exact Hin].
Qed.

Lemma all_present_map {A : Type} (f : A -> float) (l : list A) (closes : list Q) :
  all_present (map f l) = Some closes ->
  forall a, In a l -> exists q, f a = Some q.
Proof.
  revert closes. induction l as [| x l IH]; intros closes Hp a Ha; [contradiction |].
  simpl in Hp. destruct (f x) as [q |] eqn:Ex; [| discriminate].
  destruct (all_present (map f l)) as [xs |] eqn:E; [| discriminate].
  destruct Ha as [<- | Ha]; [exists q; exact Ex | exact (IH xs eq_refl a Ha)].
Qed.

(** X19: for histories as the provider returns them, the rows of the frame
    [fetch_data_safe] returns are the dates common to all histories: a date is
    a row exactly when every history has a close for it, the rows are in
    ascending date order, the columns are the requested tickers in their
    order, and each cell is the close of its ticker's history at the date of
    the row. *)
Theorem fetch_rows_are_common_dates (histories : list (string * History))
    (prices : PriceFrame) :
  well_formed histories ->
  fetch_data_safe histories = Ok prices ->
  frame_columns prices = map fst histories /\
  ascending (map fst (frame_rows prices)) /\
  (forall d, In d (map fst (frame_rows prices))
             <-> forall h, In h histories -> exists q, In (d, Some q) (snd h)) /\
  (forall d closes j h,
      In (d, closes) (frame_rows prices) ->
      nth_error histories j = Some h ->
      exists q, nth_error closes j = Some q /\ In (d, Some q) (snd h)).
Proof.
  intros [Hnd Hasc] Hok.
  destruct (fetch_data_safe_ok histories prices Hok) as (Hne & Hcols & Hrows & Hlen).
  rewrite (close_columns_distinct histories Hnd) in Hcols, Hrows.
  split; [exact Hcols |].
  split.
  { rewrite Hrows. apply dropna_rows_ascending.
    rewrite build_frame_dates. apply union_index_ascending. }
  split.
  - intros d. rewrite Hrows. split.
    + intros Hd h Hh.
      apply in_map_iff in Hd. destruct Hd as ([d' closes] & Heq & Hin).
      simpl in Heq. subst d'.
      apply dropna_rows_In in Hin. destruct Hin as (cells & Hc & Hp).
      apply build_frame_In in Hc. destruct Hc as [_ ->].
      destruct (all_present_map _ _ _ Hp h Hh) as [q Hq].
      exists q. apply lookup_close_found. exact Hq.
    + intros Hall.
      assert (Hcells : Forall (fun c : float => c <> None)
                         (map (fun column : string * History =>
                                 lookup_close d (snd column)) histories)).
      { apply Forall_map. apply Forall_forall. intros h Hh.
        destruct (Hall h Hh) as [q Hq].
        rewrite Forall_forall in Hasc.
        rewrite (lookup_close_unique (snd h) d q (Hasc h Hh) Hq). discriminate. }
      destruct (all_present_total _ Hcells) as [closes Hp].
      apply in_map_iff. exists (d, closes). split; [reflexivity |].
      apply dropna_rows_In. eexists. split; [| exact Hp].
      apply build_frame_In. split; [| reflexivity].
      apply union_index_In.
      destruct histories as [| h0 rest].
      * rewrite Hrows in Hlen. simpl in Hlen. lia.
      * exists h0. split; [left; reflexivity |].
        destruct (Hall h0 (or_introl eq_refl)) as [q Hq].
        apply in_map_iff. exists (d, Some q). split; [reflexivity | exact Hq].
  - intros d closes j h Hin Hj.
    rewrite Hrows in Hin.
    apply dropna_rows_In in Hin. destruct Hin as (cells & Hc & Hp).
    apply build_frame_In in Hc. destruct Hc as [_ ->].
    destruct (all_present_nth _ closes j (lookup_close d (snd h)) Hp) as (q & Hq & Hnth).
    { rewrite nth_error_map, Hj. reflexivity. }
    exists q. split; [exact Hnth |].
    apply lookup_close_found. exact Hq.
Qed.

Lemma seq_ascending (n : nat) : forall a : nat, ascending (seq a n).
Proof.
  unfold ascending.
  induction n as [| n IH]; intros a; simpl; constructor; [apply IH |].
  apply Forall_forall. intros x Hx. apply in_seq in Hx. lia.
Qed.

Lemma daily_history_dates (first days : nat) (close : nat -> Q) :
  map fst (daily_history first days close) = seq first days.
Proof.
  unfold daily_history. rewrite map_map. simpl. apply map_id.
Qed.

Lemma sample_histories_well_formed : well_formed sample_histories.
Proof.
  split.
  - simpl. repeat constructor; simpl; intuition discriminate.
  - unfold sample_histories.
    repeat (apply Forall_cons;
            [cbn [snd]; rewrite daily_history_dates; apply seq_ascending |]).
    apply Forall_nil.
Qed.


Lemma fetch_rows_are_common_dates_witness :
  exists prices,
    fetch_data_safe sample_histories = Ok prices /\
    frame_columns prices = map fst sample_histories /\
    ascending (map fst (frame_rows prices)) /\
    (forall d, In d (map fst (frame_rows prices))
               <-> forall h, In h sample_histories -> exists q, In (d, Some q) (snd h)) /\
    (forall d closes j h,
        In (d, closes) (frame_rows prices) ->
        nth_error sample_histories j = Some h ->
        exists q, nth_error closes j = Some q /\ In (d, Some q) (snd h)).
Proof.
  eexists. split; [vm_compute; reflexivity |].
  apply (fetch_rows_are_common_dates sample_histories).
  - exact sample_histories_well_formed.
  - vm_compute. reflexivity.
Defined.

(** ** The column check of [calculate_zscore_safe] *)

Lemma column_position_Some (name : string) (columns : list string) :
  In name columns -> exists j, column_position name columns = Some j.
Proof.
  induction columns as [| c rest IH]; intros Hin; [contradiction |].
  simpl. destruct (String.eqb_spec name c) as [E | E].
  - exists 0%nat. reflexivity.
  - destruct Hin as [Hc | Hin]; [congruence |].
    destruct (IH Hin) as [j ->]. exists (S j). reflexivity.
Qed.

Lemma column_position_None (name : string) (columns : list string) :
  ~ In name columns -> column_position name columns = None.
Proof.
  induction columns as [| c rest IH]; intros Hin; [reflexivity |].
  simpl. destruct (String.eqb_spec name c) as [E | E].
  - exfalso. apply Hin. left. symmetry. exact E.
  - rewrite IH; [reflexivity |]. intros H. apply Hin. right. exact H.
Qed.

Lemma frame_column_Some (prices : PriceFrame) (name : string) :
  In name (frame_columns prices) ->
  exists column,
    frame_column prices name = Some column /\
    length column = length (frame_rows prices).
Proof.
  intros Hin. unfold frame_column.
  destruct (column_position_Some name _ Hin) as [j ->].
  eexists. split; [reflexivity | apply length_map].
Qed.

Lemma calculate_zscore_safe_failure `{FloatLib} (prices : list PriceRow) (window : nat)
    (e : string) :
  calculate_zscore_safe prices window = Fail e -> e = InvalidPriceRatio.
Proof.
  unfold calculate_zscore_safe.
  destruct (existsb is_zero (price_ratio prices) || forallb isnull (price_ratio prices));
    [intros E; injection E as <-; reflexivity | discriminate].
Qed.

(** X20: on a frame returned by [fetch_data_safe], the column check of
    [calculate_zscore_safe] passes for any two requested tickers (the z-score
    is then computed on their two columns, each as long as the frame) and
    fails with the tickers-not-found error as soon as one of the two was not
    requested. *)
Theorem zscore_column_check `{FloatLib} (histories : list (string * History))
    (prices : PriceFrame) (ticker1 ticker2 : string) (window : nat) :
  fetch_data_safe histories = Ok prices ->
  (In ticker1 (map fst histories) -> In ticker2 (map fst histories) ->
   exists column1 column2,
     frame_column prices ticker1 = Some column1 /\
     frame_column prices ticker2 = Some column2 /\
     length column1 = length (frame_rows prices) /\
     length column2 = length (frame_rows prices) /\
     calculate_zscore_safe_on_frame prices ticker1 ticker2 window
     = calculate_zscore_safe (pair_panel column1 column2) window /\
     calculate_zscore_safe_on_frame prices ticker1 ticker2 window
     <> Fail TickersNotFound) /\
  (~ In ticker1 (map fst histories) \/ ~ In ticker2 (map fst histories) ->
   calculate_zscore_safe_on_frame prices ticker1 ticker2 window = Fail TickersNotFound).
Proof.
  intros Hok.
  assert (Hcols : forall t, In t (frame_columns prices) <-> In t (map fst histories)).
  { destruct (fetch_data_safe_ok histories prices Hok) as (_ & -> & _).
    intros t. apply close_columns_keys. }
  split.
  - intros H1 H2.
    destruct (frame_column_Some prices ticker1) as (c1 & Hc1 & Hl1);
      [apply Hcols; exact H1 |].
    destruct (frame_column_Some prices ticker2) as (c2 & Hc2 & Hl2);
      [apply Hcols; exact H2 |].
    exists c1, c2.
    unfold calculate_zscore_safe_on_frame. rewrite Hc1, Hc2.
    repeat split; try assumption.
    intros E. apply calculate_zscore_safe_failure in E. discriminate E.
  - intros Hmiss. unfold calculate_zscore_safe_on_frame, frame_column.
    destruct Hmiss as [Hm | Hm].
    + rewrite (column_position_None ticker1) by (rewrite Hcols; exact Hm).
      reflexivity.
    + rewrite (column_position_None ticker2) by (rewrite Hcols; exact Hm).
      destruct (column_position ticker1 (frame_columns prices)); reflexivity.
Qed.

Lemma zscore_column_check_witness :
  exists prices,
    fetch_data_safe sample_histories = Ok prices /\
    calculate_zscore_safe_on_frame (H := approx_lib) prices "AAA" "MSFT" 60
    = Fail TickersNotFound.
Proof.
  eexists. split; [vm_compute; reflexivity |].
  apply (zscore_column_check (H := approx_lib) sample_histories _ "AAA" "MSFT" 60).
  - vm_compute. reflexivity.
  - right. simpl. intuition discriminate.
Defined.

(** ** From the retrieved histories to the result *)









